(** * basic_string_view: a shallow embedding of include/string_view.hpp

    The class template [basic_string_view<CharT, Traits>] is a pair of a
    pointer [m_data] and a length [m_size].  Pointers are addresses in a
    partial memory, [size_type] is a 64-bit unsigned integer carried by [Z]
    with its wrap-around written out, and every member function is a
    function into [outcome]: it returns, throws [std::out_of_range], has no
    defined behaviour (it reads or writes outside of the memory, or calls
    one of the two constructor templates that the header declares and
    never defines), or exhausts the fuel given to its [while] loop. *)

From Stdlib Require Import ZArith List Lia Bool Ascii String.
Import ListNotations.

Local Open Scope Z_scope.

(** ** size_type *)

Definition size_type_modulus : Z := 2 ^ 64.

(** Unsigned arithmetic on [size_type] is arithmetic modulo [2 ^ 64]. *)
Definition wrap (z : Z) : Z := z mod size_type_modulus.

Definition is_size_type (z : Z) : Prop := 0 <= z < size_type_modulus.

(** [static constexpr size_type npos = size_type(-1);] *)
Definition npos : Z := wrap (-1).

(** [k_max_size = std::numeric_limits<size_type>::max()] *)
Definition k_max_size : Z := size_type_modulus - 1.

Definition nullptr : Z := 0.

Definition zlen {A : Type} (l : list A) : Z := Z.of_nat (Datatypes.length l).

(** ** Outcomes of a call *)

Inductive exception : Type :=
| out_of_range (what : string).

Inductive outcome (A : Type) : Type :=
| Ret (a : A)
| Throw (e : exception)
| Undefined
| OutOfFuel.

Arguments Ret {A} a.
Arguments Throw {A} e.
Arguments Undefined {A}.
Arguments OutOfFuel {A}.

Definition bind {A B : Type} (x : outcome A) (f : A -> outcome B) : outcome B :=
  match x with
  | Ret a => f a
  | Throw e => Throw e
  | Undefined => Undefined
  | OutOfFuel => OutOfFuel
  end.

Notation "x <- e ;; k" := (bind e (fun x => k))
  (at level 61, e at next level, right associativity).

Definition throws {A : Type} (x : outcome A) : bool :=
  match x with
  | Throw _ => true
  | _ => false
  end.

(** ** Character traits

    The [Traits] template parameter.  [Traits_eq], [Traits_lt] and
    [Traits_nul] are [Traits::eq], [Traits::lt] and [CharT()].
    [Traits::compare] is only specified up to the sign of its result: zero
    when the two ranges are equal under [eq], negative when the first
    position that differs is ordered by [lt], positive otherwise;
    [lex_sign] is that sign and [Traits_compare_seq] the value the
    implementation returns. *)

Fixpoint lex_sign {CharT : Type} (eqb ltb : CharT -> CharT -> bool)
    (xs ys : list CharT) : Z :=
  match xs, ys with
  | x :: xs', y :: ys' =>
      if eqb x y then lex_sign eqb ltb xs' ys'
      else if ltb x y then -1 else 1
  | _, _ => 0
  end.

Class char_traits (CharT : Type) : Type := {
  Traits_eq : CharT -> CharT -> bool;
  Traits_lt : CharT -> CharT -> bool;
  Traits_nul : CharT;
  Traits_compare_seq : list CharT -> list CharT -> Z;
  Traits_eq_refl : forall c, Traits_eq c c = true;
  Traits_eq_sym : forall c d, Traits_eq c d = Traits_eq d c;
  Traits_lt_total :
    forall c d, Traits_eq c d = false -> Traits_lt d c = negb (Traits_lt c d);
  Traits_compare_sgn :
    forall xs ys, Datatypes.length xs = Datatypes.length ys ->
      Z.sgn (Traits_compare_seq xs ys) = lex_sign Traits_eq Traits_lt xs ys
}.

(** [std::char_traits<char>]: [eq] is [==], [lt] orders as [unsigned char],
    and [compare] returns -1, 0 or 1. *)
Definition char_eq (c d : ascii) : bool := Ascii.eqb c d.
Definition char_lt (c d : ascii) : bool := (N_of_ascii c <? N_of_ascii d)%N.

#[export] Instance char_traits_char : char_traits ascii.
Proof.
  refine {| Traits_eq := char_eq;
            Traits_lt := char_lt;
            Traits_nul := Ascii.zero;
            Traits_compare_seq := lex_sign char_eq char_lt |}.
  - intro c. apply Ascii.eqb_refl.
  - intros c d. apply Ascii.eqb_sym.
  - intros c d H. unfold char_eq, char_lt in *.
    apply Ascii.eqb_neq in H.
    assert (N_of_ascii c <> N_of_ascii d).
    { intro E. apply H. rewrite <- (ascii_N_embedding c), <- (ascii_N_embedding d).
      now rewrite E. }
    destruct (N.ltb_spec (N_of_ascii c) (N_of_ascii d));
      destruct (N.ltb_spec (N_of_ascii d) (N_of_ascii c)); simpl; auto; lia.
  - intros xs ys _.
    revert ys. induction xs as [|x xs IH]; intros [|y ys]; simpl; auto.
    destruct (char_eq x y); auto. destruct (char_lt x y); reflexivity.
Defined.

Section Definitions.

Context {CharT : Type} {Traits : char_traits CharT}.

(** ** Memory

    A [const CharT*] is an address; address 0 is [nullptr].  Reading or
    writing an address that holds no character is undefined behaviour. *)

Definition memory : Type := Z -> option CharT.

(** Pointers are 64 bits wide, [nullptr] holds no object, and the address
    one past any object is representable. *)
Definition addressable (m : memory) : Prop :=
  forall a c, m a = Some c -> 0 < a /\ a + 1 < size_type_modulus.

Definition load (m : memory) (a : Z) : outcome CharT :=
  match m a with
  | Some c => Ret c
  | None => Undefined
  end.

Definition store (m : memory) (a : Z) (c : CharT) : outcome memory :=
  match m a with
  | Some _ => Ret (fun x => if x =? a then Some c else m x)
  | None => Undefined
  end.

Fixpoint load_list (m : memory) (a : Z) (n : nat) : outcome (list CharT) :=
  match n with
  | O => Ret []
  | S n' =>
      c <- load m a ;;
      cs <- load_list m (a + 1) n' ;;
      Ret (c :: cs)
  end.

(** The characters of the range [[p, p + n)]. *)
Definition load_range (m : memory) (p n : Z) : outcome (list CharT) :=
  load_list m p (Z.to_nat n).

Fixpoint store_list (m : memory) (a : Z) (cs : list CharT) : outcome memory :=
  match cs with
  | [] => Ret m
  | c :: cs' =>
      m' <- store m a c ;;
      store_list m' (a + 1) cs'
  end.

(** An automatic variable (a by-value [CharT] parameter whose address is
    taken) living at address [a]. *)
Definition with_local (m : memory) (a : Z) (c : CharT) : memory :=
  fun x => if x =? a then Some c else m x.

(** ** The members of [Traits] that take pointers *)

(** [Traits::compare(p, q, n)]: both ranges must be valid. *)
Definition Traits_compare (m : memory) (p q n : Z) : outcome Z :=
  xs <- load_range m p n ;;
  ys <- load_range m q n ;;
  Ret (Traits_compare_seq xs ys).

(** [Traits::length(s)]: the smallest [i] with [eq(s[i], CharT())]. *)
Fixpoint Traits_length_from (fuel : nat) (m : memory) (s i : Z) : outcome Z :=
  match fuel with
  | O => OutOfFuel
  | S fuel' =>
      c <- load m (s + i) ;;
      if Traits_eq c Traits_nul then Ret i
      else Traits_length_from fuel' m s (wrap (i + 1))
  end.

Definition Traits_length (fuel : nat) (m : memory) (s : Z) : outcome Z :=
  Traits_length_from fuel m s 0.

Fixpoint find_index (c : CharT) (xs : list CharT) (i : Z) : option Z :=
  match xs with
  | [] => None
  | x :: xs' => if Traits_eq x c then Some i else find_index c xs' (i + 1)
  end.

(** [Traits::find(p, n, c)]: a pointer to the first character of
    [[p, p + n)] equal to [c], or [nullptr]. *)
Definition Traits_find (m : memory) (p n : Z) (c : CharT) : outcome Z :=
  xs <- load_range m p n ;;
  Ret (match find_index c xs 0 with
       | Some i => p + i
       | None => nullptr
       end).

(** [Traits::copy(dest, src, n)]: [src] must not lie in
    [[dest, dest + n)], and [std::char_traits] copies with [memcpy], for
    which the two ranges must not overlap at all; a copy between ranges
    that overlap is undefined behaviour. *)
Definition Traits_copy (m : memory) (dest src n : Z) : outcome memory :=
  if (dest <? src + n) && (src <? dest + n) then Undefined
  else
    xs <- load_range m src n ;;
    store_list m dest xs.

(** ** The view *)

Record basic_string_view : Type := mk_view {
  m_data : Z;
  m_size : Z
}.

(** [__strlen] *)
Definition __strlen (fuel : nat) (m : memory) (data : Z) : outcome Z :=
  if data =? nullptr then Ret 0 else Traits_length fuel m data.

(** *** Constructors *)

(** [basic_string_view()] *)
Definition basic_string_view_default : basic_string_view :=
  mk_view nullptr 0.

(** [basic_string_view(const basic_string_view& other)] *)
Definition basic_string_view_copy (other : basic_string_view) : basic_string_view :=
  other.

(** [basic_string_view(const CharT* s, size_type count)] *)
Definition basic_string_view_count (s count : Z) : basic_string_view :=
  mk_view s count.

(** [basic_string_view(const CharT* s)] *)
Definition basic_string_view_cstr (fuel : nat) (m : memory) (s : Z)
    : outcome basic_string_view :=
  n <- __strlen fuel m s ;;
  Ret (mk_view s n).

(** [template <class It, class End> basic_string_view(It first, End last)]
    and [template <class R> basic_string_view(R&& r)] are declared, under
    the comment NOT YET IMPLEMENTED, and never defined.  Overload resolution
    selects the first for two arguments it matches exactly where the other
    constructors need a conversion, as [(&ch, 1)] of types [CharT*] and
    [int], and the second for the copy of a view that is not [const], which
    it takes as [basic_string_view&] where the copy constructor takes
    [const basic_string_view&].  Such a call has no definition to run. *)
Definition basic_string_view_It_End (first last : Z) : outcome basic_string_view :=
  Undefined.

Definition basic_string_view_R (r : basic_string_view) : outcome basic_string_view :=
  Undefined.

(** [operator=] *)
Definition assign (this view : basic_string_view) : basic_string_view := view.

(** *** Iterators *)

Record reverse_iterator : Type := mk_reverse_iterator { base : Z }.

Definition begin (this : basic_string_view) : Z := m_data this.
Definition cbegin (this : basic_string_view) : Z := begin this.
Definition end_ (this : basic_string_view) : Z := m_data this + m_size this.
Definition cend (this : basic_string_view) : Z := end_ this.
Definition rbegin (this : basic_string_view) : reverse_iterator :=
  mk_reverse_iterator (end_ this).
Definition crbegin (this : basic_string_view) : reverse_iterator := rbegin this.
Definition rend (this : basic_string_view) : reverse_iterator :=
  mk_reverse_iterator (begin this).
Definition crend (this : basic_string_view) : reverse_iterator := rend this.

(** *** Element access *)

(** [operator[]] *)
Definition index (m : memory) (this : basic_string_view) (pos : Z) : outcome CharT :=
  load m (m_data this + pos).

Definition at_ (m : memory) (this : basic_string_view) (pos : Z) : outcome CharT :=
  if pos <? m_size this then load m (m_data this + pos)
  else Throw (out_of_range "Out of range.").

Definition front (m : memory) (this : basic_string_view) : outcome CharT :=
  load m (m_data this + 0).

Definition back (m : memory) (this : basic_string_view) : outcome CharT :=
  load m (m_data this + wrap (m_size this - 1)).

Definition data (this : basic_string_view) : Z := m_data this.

(** *** Capacity *)

Definition size (this : basic_string_view) : Z := m_size this.
Definition length (this : basic_string_view) : Z := m_size this.
Definition max_size (this : basic_string_view) : Z := k_max_size.
Definition empty (this : basic_string_view) : bool := m_size this =? 0.

(** *** Modifiers *)

Definition remove_prefix (this : basic_string_view) (n : Z) : basic_string_view :=
  mk_view (m_data this + n) (wrap (m_size this - n)).

Definition remove_suffix (this : basic_string_view) (n : Z) : basic_string_view :=
  mk_view (m_data this) (wrap (m_size this - n)).

(** [swap] returns the new [*this] and the new [v]; [auto other = *this]
    copies [*this], which is not [const]. *)
Definition swap (this v : basic_string_view)
    : outcome (basic_string_view * basic_string_view) :=
  other <- basic_string_view_R this ;;
  let this' := assign this v in
  let v' := assign v other in
  Ret (this', v').

(** *** copy, substr *)

Definition copy (m : memory) (this : basic_string_view) (dest count pos : Z)
    : outcome (memory * Z) :=
  if m_size this <? pos then Throw (out_of_range "Out of range")
  else
    let rcount := Z.min count (wrap (m_size this - pos)) in
    m' <- Traits_copy m dest (m_data this + pos) rcount ;;
    Ret (m', rcount).

Definition substr (this : basic_string_view) (pos count : Z)
    : outcome basic_string_view :=
  if m_size this <? pos then Throw (out_of_range "Out of range")
  else
    let rcount := Z.min count (wrap (m_size this - pos)) in
    Ret (if rcount <=? 0 then basic_string_view_default
         else basic_string_view_count (m_data this + pos) rcount).

(** *** compare *)

Definition compare (m : memory) (this v : basic_string_view) : outcome Z :=
  let rlen := Z.min (m_size this) (m_size v) in
  comparison <- Traits_compare m (m_data this) (m_data v) rlen ;;
  if negb (comparison =? 0) then Ret comparison
  else if m_size this =? m_size v then Ret 0
  else Ret (if m_size this <? m_size v then -1 else 1).

(** [compare(pos1, count1, v)]: the parameter [v] is not [const], and
    passing it on to [compare] copies it. *)
Definition compare_sub (m : memory) (this : basic_string_view) (pos1 count1 : Z)
    (v : basic_string_view) : outcome Z :=
  s1 <- substr this pos1 count1 ;;
  v' <- basic_string_view_R v ;;
  compare m s1 v'.

(** [compare(pos1, count1, v, pos2, count2)] *)
Definition compare_sub_sub (m : memory) (this : basic_string_view) (pos1 count1 : Z)
    (v : basic_string_view) (pos2 count2 : Z) : outcome Z :=
  s1 <- substr this pos1 count1 ;;
  s2 <- substr v pos2 count2 ;;
  compare m s1 s2.

(** [compare(s)] *)
Definition compare_cstr (fuel : nat) (m : memory) (this : basic_string_view) (s : Z)
    : outcome Z :=
  v <- basic_string_view_cstr fuel m s ;;
  compare m this v.

(** [compare(pos1, count1, s)] *)
Definition compare_sub_cstr (fuel : nat) (m : memory) (this : basic_string_view)
    (pos1 count1 s : Z) : outcome Z :=
  s1 <- substr this pos1 count1 ;;
  v <- basic_string_view_cstr fuel m s ;;
  compare m s1 v.

(** [compare(pos1, count1, s, count2)] *)
Definition compare_sub_count (m : memory) (this : basic_string_view)
    (pos1 count1 s count2 : Z) : outcome Z :=
  s1 <- substr this pos1 count1 ;;
  compare m s1 (basic_string_view_count s count2).

(** *** The relational operators

    Each takes [a] and [b] by value and passes [b], which is not [const],
    on to [compare], which takes its parameter by value: [b] is copied. *)

Definition operator_eq (m : memory) (a b : basic_string_view) : outcome bool :=
  b' <- basic_string_view_R b ;;
  c <- compare m a b' ;; Ret (c =? 0).
Definition operator_ne (m : memory) (a b : basic_string_view) : outcome bool :=
  b' <- basic_string_view_R b ;;
  c <- compare m a b' ;; Ret (negb (c =? 0)).
Definition operator_lt (m : memory) (a b : basic_string_view) : outcome bool :=
  b' <- basic_string_view_R b ;;
  c <- compare m a b' ;; Ret (c <? 0).
Definition operator_gt (m : memory) (a b : basic_string_view) : outcome bool :=
  b' <- basic_string_view_R b ;;
  c <- compare m a b' ;; Ret (c >? 0).
Definition operator_le (m : memory) (a b : basic_string_view) : outcome bool :=
  b' <- basic_string_view_R b ;;
  c <- compare m a b' ;; Ret (c <=? 0).
Definition operator_ge (m : memory) (a b : basic_string_view) : outcome bool :=
  b' <- basic_string_view_R b ;;
  c <- compare m a b' ;; Ret (c >=? 0).

(** *** starts_with, ends_with

    [substr(...) == sv] passes the parameter [sv], which is not [const], to
    [operator==], which takes its operands by value: [sv] is copied. *)

Definition starts_with (m : memory) (this sv : basic_string_view) : outcome bool :=
  if m_size this >=? m_size sv then
    s <- substr this 0 (m_size sv) ;;
    b <- basic_string_view_R sv ;;
    operator_eq m s b
  else Ret false.

Definition starts_with_char (m : memory) (this : basic_string_view) (c : CharT)
    : outcome bool :=
  if negb (empty this) then
    f <- front m this ;;
    Ret (Traits_eq f c)
  else Ret false.

Definition starts_with_cstr (fuel : nat) (m : memory) (this : basic_string_view)
    (s : Z) : outcome bool :=
  sv <- basic_string_view_cstr fuel m s ;;
  starts_with m this sv.

Definition ends_with (m : memory) (this sv : basic_string_view) : outcome bool :=
  if m_size this >=? m_size sv then
    s <- substr this (wrap (m_size this - m_size sv)) npos ;;
    b <- basic_string_view_R sv ;;
    operator_eq m s b
  else Ret false.

Definition ends_with_char (m : memory) (this : basic_string_view) (c : CharT)
    : outcome bool :=
  if negb (empty this) then
    b <- back m this ;;
    Ret (Traits_eq b c)
  else Ret false.

Definition ends_with_cstr (fuel : nat) (m : memory) (this : basic_string_view)
    (s : Z) : outcome bool :=
  sv <- basic_string_view_cstr fuel m s ;;
  ends_with m this sv.

(** *** find *)

(** The [while (pos + v.m_size <= m_size)] loop of [find]. *)
Fixpoint find_loop (fuel : nat) (m : memory) (this v : basic_string_view) (pos : Z)
    : outcome Z :=
  match fuel with
  | O => OutOfFuel
  | S fuel' =>
      if wrap (pos + m_size v) <=? m_size this then
        c <- Traits_compare m (m_data this + pos) (m_data v) (m_size v) ;;
        if c =? 0 then Ret pos
        else find_loop fuel' m this v (wrap (pos + 1))
      else Ret npos
  end.

Definition find (fuel : nat) (m : memory) (this v : basic_string_view) (pos : Z)
    : outcome Z :=
  if empty this && empty v && (pos =? 0) then Ret 0
  else if (pos >? m_size this) || (m_size v >? wrap (m_size this - pos)) then Ret npos
  else find_loop fuel m this v pos.

(** [find(CharT ch, pos)]; [ch_addr] is [&ch].  Here and in the other
    overloads that take a character, [basic_string_view(&ch, 1)] has
    arguments of types [CharT*] and [int]. *)
Definition find_char (fuel : nat) (m : memory) (this : basic_string_view)
    (ch_addr : Z) (ch : CharT) (pos : Z) : outcome Z :=
  v <- basic_string_view_It_End ch_addr 1 ;;
  find fuel (with_local m ch_addr ch) this v pos.

(** [find(const CharT* s, pos, count)] *)
Definition find_count (fuel : nat) (m : memory) (this : basic_string_view)
    (s pos count : Z) : outcome Z :=
  find fuel m this (basic_string_view_count s count) pos.

(** [find(const CharT* s, pos)] *)
Definition find_cstr (fuel : nat) (m : memory) (this : basic_string_view)
    (s pos : Z) : outcome Z :=
  v <- basic_string_view_cstr fuel m s ;;
  find fuel m this v pos.

(** *** rfind *)

(** The [while (pos != npos)] loop of [rfind]. *)
Fixpoint rfind_loop (fuel : nat) (m : memory) (this s : basic_string_view) (pos : Z)
    : outcome Z :=
  match fuel with
  | O => OutOfFuel
  | S fuel' =>
      if negb (pos =? npos) then
        c <- Traits_compare m (m_data this + pos) (m_data s) (m_size s) ;;
        if c =? 0 then Ret pos
        else rfind_loop fuel' m this s (wrap (pos - 1))
      else Ret npos
  end.

Definition rfind (fuel : nat) (m : memory) (this s : basic_string_view) (pos : Z)
    : outcome Z :=
  if empty s then Ret (Z.min pos (m_size this))
  else if m_size s >? m_size this then Ret npos
  else rfind_loop fuel m this s (Z.min pos (wrap (m_size this - m_size s))).

Definition rfind_char (fuel : nat) (m : memory) (this : basic_string_view)
    (c_addr : Z) (c : CharT) (pos : Z) : outcome Z :=
  v <- basic_string_view_It_End c_addr 1 ;;
  rfind fuel (with_local m c_addr c) this v pos.

Definition rfind_count (fuel : nat) (m : memory) (this : basic_string_view)
    (s pos n : Z) : outcome Z :=
  rfind fuel m this (basic_string_view_count s n) pos.

Definition rfind_cstr (fuel : nat) (m : memory) (this : basic_string_view)
    (s pos : Z) : outcome Z :=
  v <- basic_string_view_cstr fuel m s ;;
  rfind fuel m this v pos.

(** *** find_first_of, find_first_not_of

    The two loops differ in the test on the pointer [Traits::find] returns:
    [!= nullptr] for [find_first_of] ([wanted = true]), [== nullptr] for
    [find_first_not_of] ([wanted = false]). *)

Fixpoint find_first_loop (wanted : bool) (fuel : nat) (m : memory)
    (this s : basic_string_view) (pos : Z) : outcome Z :=
  match fuel with
  | O => OutOfFuel
  | S fuel' =>
      if pos <? m_size this then
        c <- load m (m_data this + pos) ;;
        p <- Traits_find m (m_data s) (m_size s) c ;;
        if Bool.eqb (negb (p =? nullptr)) wanted then Ret pos
        else find_first_loop wanted fuel' m this s (wrap (pos + 1))
      else Ret npos
  end.

Definition find_first_of (fuel : nat) (m : memory) (this s : basic_string_view)
    (pos : Z) : outcome Z :=
  find_first_loop true fuel m this s pos.

Definition find_first_of_char (fuel : nat) (m : memory) (this : basic_string_view)
    (c_addr : Z) (c : CharT) (pos : Z) : outcome Z :=
  v <- basic_string_view_It_End c_addr 1 ;;
  find_first_of fuel (with_local m c_addr c) this v pos.

Definition find_first_of_count (fuel : nat) (m : memory) (this : basic_string_view)
    (s pos n : Z) : outcome Z :=
  find_first_of fuel m this (basic_string_view_count s n) pos.

Definition find_first_of_cstr (fuel : nat) (m : memory) (this : basic_string_view)
    (s pos : Z) : outcome Z :=
  v <- basic_string_view_cstr fuel m s ;;
  find_first_of fuel m this v pos.

Definition find_first_not_of (fuel : nat) (m : memory) (this s : basic_string_view)
    (pos : Z) : outcome Z :=
  find_first_loop false fuel m this s pos.

Definition find_first_not_of_char (fuel : nat) (m : memory) (this : basic_string_view)
    (c_addr : Z) (c : CharT) (pos : Z) : outcome Z :=
  v <- basic_string_view_It_End c_addr 1 ;;
  find_first_not_of fuel (with_local m c_addr c) this v pos.

Definition find_first_not_of_count (fuel : nat) (m : memory)
    (this : basic_string_view) (s pos n : Z) : outcome Z :=
  find_first_not_of fuel m this (basic_string_view_count s n) pos.

Definition find_first_not_of_cstr (fuel : nat) (m : memory)
    (this : basic_string_view) (s pos : Z) : outcome Z :=
  v <- basic_string_view_cstr fuel m s ;;
  find_first_not_of fuel m this v pos.

(** *** find_last_of, find_last_not_of *)

Fixpoint find_last_loop (wanted : bool) (fuel : nat) (m : memory)
    (this s : basic_string_view) (pos : Z) : outcome Z :=
  match fuel with
  | O => OutOfFuel
  | S fuel' =>
      if negb (pos =? npos) then
        c <- load m (m_data this + pos) ;;
        p <- Traits_find m (m_data s) (m_size s) c ;;
        if Bool.eqb (negb (p =? nullptr)) wanted then Ret pos
        else find_last_loop wanted fuel' m this s (wrap (pos - 1))
      else Ret npos
  end.

Definition find_last_of (fuel : nat) (m : memory) (this s : basic_string_view)
    (pos : Z) : outcome Z :=
  if empty this then Ret npos
  else find_last_loop true fuel m this s (Z.min pos (wrap (m_size this - 1))).

Definition find_last_of_char (fuel : nat) (m : memory) (this : basic_string_view)
    (c_addr : Z) (c : CharT) (pos : Z) : outcome Z :=
  v <- basic_string_view_It_End c_addr 1 ;;
  find_last_of fuel (with_local m c_addr c) this v pos.

Definition find_last_of_count (fuel : nat) (m : memory) (this : basic_string_view)
    (s pos n : Z) : outcome Z :=
  find_last_of fuel m this (basic_string_view_count s n) pos.

Definition find_last_of_cstr (fuel : nat) (m : memory) (this : basic_string_view)
    (s pos : Z) : outcome Z :=
  v <- basic_string_view_cstr fuel m s ;;
  find_last_of fuel m this v pos.

Definition find_last_not_of (fuel : nat) (m : memory) (this s : basic_string_view)
    (pos : Z) : outcome Z :=
  if empty this then Ret npos
  else find_last_loop false fuel m this s (Z.min pos (wrap (m_size this - 1))).

Definition find_last_not_of_char (fuel : nat) (m : memory) (this : basic_string_view)
    (c_addr : Z) (c : CharT) (pos : Z) : outcome Z :=
  v <- basic_string_view_It_End c_addr 1 ;;
  find_last_not_of fuel (with_local m c_addr c) this v pos.

Definition find_last_not_of_count (fuel : nat) (m : memory)
    (this : basic_string_view) (s pos n : Z) : outcome Z :=
  find_last_not_of fuel m this (basic_string_view_count s n) pos.

Definition find_last_not_of_cstr (fuel : nat) (m : memory)
    (this : basic_string_view) (s pos : Z) : outcome Z :=
  v <- basic_string_view_cstr fuel m s ;;
  find_last_not_of fuel m this v pos.

(** The literal operator [_sv] *)
Definition operator_sv (data size : Z) : basic_string_view :=
  basic_string_view_count data size.

End Definitions.

Arguments memory CharT : clear implicits.

(** ** The public interface as data

    One constructor per public operation of the class together with its
    arguments; [run] performs the call on [this] and forgets the result.
    For an overload that takes a [CharT] by value the call carries the
    address of that parameter.
    Stream insertion and [std::hash] only read [data()] and [size()] and
    belong to the stream and hashing facilities. *)

Definition done {A : Type} (x : outcome A) : outcome unit :=
  _ <- x ;; Ret tt.

Section Interface.

Context {CharT : Type} {Traits : char_traits CharT}.

Inductive call : Type :=
| call_basic_string_view_default
| call_basic_string_view_copy (other : basic_string_view)
| call_basic_string_view_count (s count : Z)
| call_basic_string_view_cstr (s : Z)
| call_assign (view : basic_string_view)
| call_begin | call_cbegin | call_end | call_cend
| call_rbegin | call_crbegin | call_rend | call_crend
| call_index (pos : Z)
| call_at (pos : Z)
| call_front | call_back | call_data
| call_size | call_length | call_max_size | call_empty
| call_remove_prefix (n : Z)
| call_remove_suffix (n : Z)
| call_swap (v : basic_string_view)
| call_copy (dest count pos : Z)
| call_substr (pos count : Z)
| call_compare (v : basic_string_view)
| call_compare_sub (pos1 count1 : Z) (v : basic_string_view)
| call_compare_sub_sub (pos1 count1 : Z) (v : basic_string_view) (pos2 count2 : Z)
| call_compare_cstr (s : Z)
| call_compare_sub_cstr (pos1 count1 s : Z)
| call_compare_sub_count (pos1 count1 s count2 : Z)
| call_starts_with (sv : basic_string_view)
| call_starts_with_char (c : CharT)
| call_starts_with_cstr (s : Z)
| call_ends_with (sv : basic_string_view)
| call_ends_with_char (c : CharT)
| call_ends_with_cstr (s : Z)
| call_find (v : basic_string_view) (pos : Z)
| call_find_char (ch_addr : Z) (ch : CharT) (pos : Z)
| call_find_count (s pos count : Z)
| call_find_cstr (s pos : Z)
| call_rfind (s : basic_string_view) (pos : Z)
| call_rfind_char (c_addr : Z) (c : CharT) (pos : Z)
| call_rfind_count (s pos n : Z)
| call_rfind_cstr (s pos : Z)
| call_find_first_of (s : basic_string_view) (pos : Z)
| call_find_first_of_char (c_addr : Z) (c : CharT) (pos : Z)
| call_find_first_of_count (s pos n : Z)
| call_find_first_of_cstr (s pos : Z)
| call_find_last_of (s : basic_string_view) (pos : Z)
| call_find_last_of_char (c_addr : Z) (c : CharT) (pos : Z)
| call_find_last_of_count (s pos n : Z)
| call_find_last_of_cstr (s pos : Z)
| call_find_first_not_of (s : basic_string_view) (pos : Z)
| call_find_first_not_of_char (c_addr : Z) (c : CharT) (pos : Z)
| call_find_first_not_of_count (s pos n : Z)
| call_find_first_not_of_cstr (s pos : Z)
| call_find_last_not_of (s : basic_string_view) (pos : Z)
| call_find_last_not_of_char (c_addr : Z) (c : CharT) (pos : Z)
| call_find_last_not_of_count (s pos n : Z)
| call_find_last_not_of_cstr (s pos : Z)
| call_operator_eq (b : basic_string_view)
| call_operator_ne (b : basic_string_view)
| call_operator_lt (b : basic_string_view)
| call_operator_gt (b : basic_string_view)
| call_operator_le (b : basic_string_view)
| call_operator_ge (b : basic_string_view)
| call_operator_sv (data size : Z).

Definition run (fuel : nat) (m : memory CharT) (this : basic_string_view) (c : call)
    : outcome unit :=
  match c with
  | call_basic_string_view_default => done (Ret basic_string_view_default)
  | call_basic_string_view_copy other => done (Ret (basic_string_view_copy other))
  | call_basic_string_view_count s count => done (Ret (basic_string_view_count s count))
  | call_basic_string_view_cstr s => done (basic_string_view_cstr fuel m s)
  | call_assign view => done (Ret (assign this view))
  | call_begin => done (Ret (begin this))
  | call_cbegin => done (Ret (cbegin this))
  | call_end => done (Ret (end_ this))
  | call_cend => done (Ret (cend this))
  | call_rbegin => done (Ret (rbegin this))
  | call_crbegin => done (Ret (crbegin this))
  | call_rend => done (Ret (rend this))
  | call_crend => done (Ret (crend this))
  | call_index pos => done (index m this pos)
  | call_at pos => done (at_ m this pos)
  | call_front => done (front m this)
  | call_back => done (back m this)
  | call_data => done (Ret (data this))
  | call_size => done (Ret (size this))
  | call_length => done (Ret (length this))
  | call_max_size => done (Ret (max_size this))
  | call_empty => done (Ret (empty this))
  | call_remove_prefix n => done (Ret (remove_prefix this n))
  | call_remove_suffix n => done (Ret (remove_suffix this n))
  | call_swap v => done (swap this v)
  | call_copy dest count pos => done (copy m this dest count pos)
  | call_substr pos count => done (substr this pos count)
  | call_compare v => done (compare m this v)
  | call_compare_sub pos1 count1 v => done (compare_sub m this pos1 count1 v)
  | call_compare_sub_sub pos1 count1 v pos2 count2 =>
      done (compare_sub_sub m this pos1 count1 v pos2 count2)
  | call_compare_cstr s => done (compare_cstr fuel m this s)
  | call_compare_sub_cstr pos1 count1 s =>
      done (compare_sub_cstr fuel m this pos1 count1 s)
  | call_compare_sub_count pos1 count1 s count2 =>
      done (compare_sub_count m this pos1 count1 s count2)
  | call_starts_with sv => done (starts_with m this sv)
  | call_starts_with_char c => done (starts_with_char m this c)
  | call_starts_with_cstr s => done (starts_with_cstr fuel m this s)
  | call_ends_with sv => done (ends_with m this sv)
  | call_ends_with_char c => done (ends_with_char m this c)
  | call_ends_with_cstr s => done (ends_with_cstr fuel m this s)
  | call_find v pos => done (find fuel m this v pos)
  | call_find_char a ch pos => done (find_char fuel m this a ch pos)
  | call_find_count s pos count => done (find_count fuel m this s pos count)
  | call_find_cstr s pos => done (find_cstr fuel m this s pos)
  | call_rfind s pos => done (rfind fuel m this s pos)
  | call_rfind_char a c pos => done (rfind_char fuel m this a c pos)
  | call_rfind_count s pos n => done (rfind_count fuel m this s pos n)
  | call_rfind_cstr s pos => done (rfind_cstr fuel m this s pos)
  | call_find_first_of s pos => done (find_first_of fuel m this s pos)
  | call_find_first_of_char a c pos => done (find_first_of_char fuel m this a c pos)
  | call_find_first_of_count s pos n => done (find_first_of_count fuel m this s pos n)
  | call_find_first_of_cstr s pos => done (find_first_of_cstr fuel m this s pos)
  | call_find_last_of s pos => done (find_last_of fuel m this s pos)
  | call_find_last_of_char a c pos => done (find_last_of_char fuel m this a c pos)
  | call_find_last_of_count s pos n => done (find_last_of_count fuel m this s pos n)
  | call_find_last_of_cstr s pos => done (find_last_of_cstr fuel m this s pos)
  | call_find_first_not_of s pos => done (find_first_not_of fuel m this s pos)
  | call_find_first_not_of_char a c pos => done (find_first_not_of_char fuel m this a c pos)
  | call_find_first_not_of_count s pos n =>
      done (find_first_not_of_count fuel m this s pos n)
  | call_find_first_not_of_cstr s pos =>
      done (find_first_not_of_cstr fuel m this s pos)
  | call_find_last_not_of s pos => done (find_last_not_of fuel m this s pos)
  | call_find_last_not_of_char a c pos => done (find_last_not_of_char fuel m this a c pos)
  | call_find_last_not_of_count s pos n =>
      done (find_last_not_of_count fuel m this s pos n)
  | call_find_last_not_of_cstr s pos =>
      done (find_last_not_of_cstr fuel m this s pos)
  | call_operator_eq b => done (operator_eq m this b)
  | call_operator_ne b => done (operator_ne m this b)
  | call_operator_lt b => done (operator_lt m this b)
  | call_operator_gt b => done (operator_gt m this b)
  | call_operator_le b => done (operator_le m this b)
  | call_operator_ge b => done (operator_ge m this b)
  | call_operator_sv data size => done (Ret (operator_sv data size))
  end.

(** The views among the arguments of a call. *)
Definition view_arguments (c : call) : list basic_string_view :=
  match c with
  | call_basic_string_view_copy v | call_assign v | call_swap v
  | call_compare v | call_compare_sub _ _ v | call_compare_sub_sub _ _ v _ _
  | call_starts_with v | call_ends_with v
  | call_find v _ | call_rfind v _
  | call_find_first_of v _ | call_find_last_of v _
  | call_find_first_not_of v _ | call_find_last_not_of v _
  | call_operator_eq v | call_operator_ne v | call_operator_lt v
  | call_operator_gt v | call_operator_le v | call_operator_ge v => [v]
  | _ => []
  end.

(** A call is well typed on [this] when the size of [this] and of every
    view among the arguments is a [size_type]. *)
Definition well_typed (this : basic_string_view) (c : call) : Prop :=
  Forall (fun v => is_size_type (m_size v)) (this :: view_arguments c).

(** When a call throws according to the sentence of the specification on
    the out-of-range condition: in [at], [substr] and the [compare]
    overloads that slice first, when the start position exceeds the
    length. *)
Definition raises_as_specified (this : basic_string_view) (c : call) : bool :=
  match c with
  | call_at pos | call_substr pos _
  | call_compare_sub pos _ _ | call_compare_sub_cstr pos _ _
  | call_compare_sub_count pos _ _ _ => pos >? m_size this
  | call_compare_sub_sub pos1 _ v pos2 _ =>
      (pos1 >? m_size this) || (pos2 >? m_size v)
  | _ => false
  end.

(** When a call throws: [at] when [pos >= size]; [substr], [copy] and the
    [compare] overloads that slice first when a start position exceeds
    the length of the view it slices. *)
Definition raises (this : basic_string_view) (c : call) : bool :=
  match c with
  | call_at pos => pos >=? m_size this
  | call_substr pos _ | call_copy _ _ pos
  | call_compare_sub pos _ _ | call_compare_sub_cstr pos _ _
  | call_compare_sub_count pos _ _ _ => pos >? m_size this
  | call_compare_sub_sub pos1 _ v pos2 _ =>
      (pos1 >? m_size this) || (pos2 >? m_size v)
  | _ => false
  end.

End Interface.

Arguments call CharT : clear implicits.

(** ** Vocabulary of the specification *)

Section Vocabulary.

Context {CharT : Type} {Traits : char_traits CharT}.

(** [this] is a view of the characters [xs]: its length is a [size_type] and
    the range [[m_data, m_data + m_size)] can be read and holds [xs]. *)
Definition views (m : memory CharT) (this : basic_string_view) (xs : list CharT)
    : Prop :=
  is_size_type (m_size this) /\
  load_range m (m_data this) (m_size this) = Ret xs.

(** [this] aliases the range [[p, p + n)]: it has [n] characters and its
    [i]-th character is the object at [p + i]. *)
Definition aliases (this : basic_string_view) (p n : Z) : Prop :=
  m_size this = n /\ forall i, 0 <= i < n -> m_data this + i = p + i.

(** Element-wise equality under [Traits::eq]. *)
Fixpoint seq_eqb (xs ys : list CharT) : bool :=
  match xs, ys with
  | [], [] => true
  | x :: xs', y :: ys' => Traits_eq x y && seq_eqb xs' ys'
  | _, _ => false
  end.

(** The [n] characters of [xs] that start at index [i]. *)
Definition slice (xs : list CharT) (i n : Z) : list CharT :=
  firstn (Z.to_nat n) (skipn (Z.to_nat i) xs).

(** The [zlen needle]-long slice of [hay] at [i] exists and equals [needle]. *)
Definition occurs_at (hay needle : list CharT) (i : Z) : Prop :=
  0 <= i /\ i + zlen needle <= zlen hay /\
  seq_eqb (slice hay i (zlen needle)) needle = true.

(** [r] is what a forward search for [needle] from [pos] finds: the first
    index at or after [pos] where [needle] occurs, [npos] when there is
    none. *)
Definition first_from (hay needle : list CharT) (pos r : Z) : Prop :=
  (r = npos /\ forall i, pos <= i -> ~ occurs_at hay needle i) \/
  (pos <= r /\ occurs_at hay needle r /\
   forall i, pos <= i < r -> ~ occurs_at hay needle i).

(** [r] is what a backward search for [needle] from [pos] finds: the last
    index at or before [pos] where [needle] occurs, [npos] when there is
    none. *)
Definition last_upto (hay needle : list CharT) (pos r : Z) : Prop :=
  (r = npos /\ forall i, i <= pos -> ~ occurs_at hay needle i) \/
  (r <= pos /\ occurs_at hay needle r /\
   forall i, r < i <= pos -> ~ occurs_at hay needle i).

(** [s] points to the characters [xs], none of them null, followed by a
    null terminator. *)
Definition c_string (m : memory CharT) (s : Z) (xs : list CharT) : Prop :=
  load_range m s (zlen xs + 1) = Ret (xs ++ [Traits_nul]) /\
  forallb (fun c => negb (Traits_eq c Traits_nul)) xs = true.

(** The value [compare] returns on two views of [xs] and [ys]. *)
Definition compare_value (xs ys : list CharT) : Z :=
  let rlen := Z.min (zlen xs) (zlen ys) in
  let comparison := Traits_compare_seq (slice xs 0 rlen) (slice ys 0 rlen) in
  if negb (comparison =? 0) then comparison
  else if zlen xs =? zlen ys then 0
  else if zlen xs <? zlen ys then -1 else 1.

(** [c] is one of the characters of [set], under [Traits::eq]. *)
Definition in_set (set : list CharT) (c : CharT) : bool :=
  existsb (fun x => Traits_eq x c) set.

(** Index [i] of [hay] holds a character that is in [set] ([wanted = true])
    or that is not in [set] ([wanted = false]). *)
Definition hit (wanted : bool) (hay set : list CharT) (i : Z) : Prop :=
  0 <= i /\ exists c, nth_error hay (Z.to_nat i) = Some c /\ in_set set c = wanted.

(** [r] is the first index at or after [pos] that is a [hit], [npos] when
    there is none. *)
Definition first_hit (wanted : bool) (hay set : list CharT) (pos r : Z) : Prop :=
  (r = npos /\ forall i, pos <= i -> ~ hit wanted hay set i) \/
  (pos <= r /\ hit wanted hay set r /\
   forall i, pos <= i < r -> ~ hit wanted hay set i).

(** [r] is the last index at or before [pos] that is a [hit], [npos] when
    there is none. *)
Definition last_hit (wanted : bool) (hay set : list CharT) (pos r : Z) : Prop :=
  (r = npos /\ forall i, i <= pos -> ~ hit wanted hay set i) \/
  (r <= pos /\ hit wanted hay set r /\
   forall i, r < i <= pos -> ~ hit wanted hay set i).

(** The sign of the lexicographic order on character sequences, a proper
    prefix being less. *)
Fixpoint lex_cmp (xs ys : list CharT) : Z :=
  match xs, ys with
  | [], [] => 0
  | [], _ :: _ => -1
  | _ :: _, [] => 1
  | x :: xs', y :: ys' =>
      if Traits_eq x y then lex_cmp xs' ys'
      else if Traits_lt x y then -1 else 1
  end.

End Vocabulary.

(** ** Memories that hold string literals *)

Definition no_memory : memory ascii := fun _ => None.

(** [place a cs m]: the memory [m] with the array [cs] at address [a]. *)
Definition place (a : Z) (cs : list ascii) (m : memory ascii) : memory ascii :=
  fun x =>
    if (a <=? x) && (x <? a + zlen cs) then nth_error cs (Z.to_nat (x - a))
    else m x.

(** The array of a string literal, terminator included. *)
Definition literal (s : string) : list ascii :=
  list_ascii_of_string s ++ [Ascii.zero].

(** ["hello"] at 100, ["ell"] at 200 and an array of eight characters at 300. *)
Definition example_memory : memory ascii :=
  place 100 (literal "hello")
    (place 200 (literal "ell")
       (place 300 (literal "........") no_memory)).

Definition hello : basic_string_view := basic_string_view_count 100 5.
Definition ell : basic_string_view := basic_string_view_count 200 3.

Definition hello_chars : list ascii := list_ascii_of_string "hello".
Definition ell_chars : list ascii := list_ascii_of_string "ell".

Definition dots : basic_string_view := basic_string_view_count 300 8.
Definition dots_chars : list ascii := list_ascii_of_string "........".

(** The string literals of the scenarios: ["hello world"] at 1000, ["world"]
    at 1100, ["abc"] at 1200, ["abd"] at 1300, ["  trim  "] at 1400, [" "] at
    1500 and the empty literal at 1600. *)
Definition scenario_memory : memory ascii :=
  place 1000 (literal "hello world")
    (place 1100 (literal "world")
       (place 1200 (literal "abc")
          (place 1300 (literal "abd")
             (place 1400 (literal "  trim  ")
                (place 1500 (literal " ")
                   (place 1600 (literal EmptyString) example_memory)))))).

(** [string_view(s).f(string_view(t), ...)] for two literals at [s] and [t]. *)
Definition on_literals {A : Type} (s t : Z)
    (f : basic_string_view -> basic_string_view -> outcome A) : outcome A :=
  a <- basic_string_view_cstr 20 scenario_memory s ;;
  b <- basic_string_view_cstr 20 scenario_memory t ;;
  f a b.

(** * Properties *)

(** ** size_type arithmetic *)

Lemma size_type_modulus_eq : size_type_modulus = 18446744073709551616.
Proof. reflexivity. Qed.

Lemma npos_eq : npos = size_type_modulus - 1.
Proof. reflexivity. Qed.

Lemma wrap_small (z : Z) : is_size_type z -> wrap z = z.
Proof. intros H. apply Z.mod_small. exact H. Qed.

Lemma wrap_is_size_type (z : Z) : is_size_type (wrap z).
Proof.
  unfold wrap, is_size_type. apply Z.mod_pos_bound.
  rewrite size_type_modulus_eq. lia.
Qed.

Lemma wrap_minus_one : wrap (0 - 1) = npos.
Proof. reflexivity. Qed.

Lemma zlen_nonneg {A : Type} (l : list A) : 0 <= zlen l.
Proof. unfold zlen. lia. Qed.

Lemma zlen_cons {A : Type} (x : A) (l : list A) : zlen (x :: l) = zlen l + 1.
Proof. unfold zlen. simpl Datatypes.length. lia. Qed.

Ltac size_type :=
  unfold is_size_type in *; rewrite ?npos_eq, ?size_type_modulus_eq in *.

(** ** Outcomes *)

Lemma bind_Ret_inv {A B : Type} (x : outcome A) (f : A -> outcome B) (b : B) :
  (a <- x ;; f a) = Ret b -> exists a, x = Ret a /\ f a = Ret b.
Proof. destruct x; simpl; intros H; try discriminate. eauto. Qed.

Lemma throws_bind {A B : Type} (x : outcome A) (f : A -> outcome B) :
  throws x = false -> (forall a, throws (f a) = false) ->
  throws (a <- x ;; f a) = false.
Proof. destruct x; simpl; auto; discriminate. Qed.

Lemma throws_done {A : Type} (x : outcome A) : throws (done x) = throws x.
Proof. destruct x; reflexivity. Qed.

Section Proofs.

Context {CharT : Type} {Traits : char_traits CharT}.

Implicit Types (m : memory CharT) (this v : basic_string_view) (xs ys : list CharT).

(** ** Reading ranges *)

Lemma load_list_length m a n xs :
  load_list m a n = Ret xs -> Datatypes.length xs = n.
Proof.
  revert a xs. induction n as [|n IH]; simpl; intros a xs H.
  - now inversion H.
  - apply bind_Ret_inv in H as (c & _ & H).
    apply bind_Ret_inv in H as (cs & Hcs & H).
    inversion H; subst. simpl. f_equal. eauto.
Qed.

Lemma load_list_app m a n k :
  load_list m a (n + k) =
  (xs <- load_list m a n ;; ys <- load_list m (a + Z.of_nat n) k ;; Ret (xs ++ ys)).
Proof.
  revert a. induction n as [|n IH]; intros a.
  - simpl. replace (a + 0) with a by lia.
    destruct (load_list m a k); reflexivity.
  - cbn [Nat.add load_list]. rewrite IH.
    replace (a + 1 + Z.of_nat n) with (a + Z.of_nat (S n)) by lia.
    generalize (load_list m (a + Z.of_nat (S n)) k) as Y. intros Y.
    destruct (load m a) as [c| | |]; cbn [bind]; auto.
    destruct (load_list m (a + 1) n); cbn [bind]; auto.
    destruct Y; reflexivity.
Qed.

Lemma load_list_no_throw m a n : throws (load_list m a n) = false.
Proof.
  revert a. induction n as [|n IH]; intros a; simpl; auto.
  unfold load. destruct (m a); simpl; auto.
  specialize (IH (a + 1)). destruct (load_list m (a + 1) n); simpl in *; auto.
Qed.

(** Part of a readable range is readable, and holds that part. *)
Lemma load_list_slice m a n xs i k :
  load_list m a n = Ret xs -> (i + k <= n)%nat ->
  load_list m (a + Z.of_nat i) k = Ret (firstn k (skipn i xs)).
Proof.
  intros H Hik.
  replace n with (i + (k + (n - i - k)))%nat in H by lia.
  rewrite load_list_app in H.
  apply bind_Ret_inv in H as (x1 & H1 & H).
  apply bind_Ret_inv in H as (x2 & H2 & H).
  rewrite load_list_app in H2.
  apply bind_Ret_inv in H2 as (x3 & H3 & H2).
  apply bind_Ret_inv in H2 as (x4 & H4 & H2).
  inversion H; inversion H2; subst.
  apply load_list_length in H1. apply load_list_length in H3 as H3'.
  rewrite skipn_app, <- H1, Nat.sub_diag, skipn_all. simpl.
  rewrite firstn_app, <- H3', Nat.sub_diag, firstn_all. simpl.
  rewrite app_nil_r, H1, H3'. exact H3.
Qed.

Lemma load_list_addressable m a n xs :
  addressable m -> load_list m a (S n) = Ret xs ->
  0 < a /\ a + Z.of_nat (S n) < size_type_modulus.
Proof.
  intros Hm. revert a xs. induction n as [|n IH]; intros a xs H.
  - simpl in H. unfold load in H. destruct (m a) eqn:E; try discriminate.
    apply Hm in E. lia.
  - cbn [load_list] in H. apply bind_Ret_inv in H as (c & Hc & H).
    apply bind_Ret_inv in H as (cs & Hcs & _).
    apply IH in Hcs. unfold load in Hc. destruct (m a) eqn:E; try discriminate.
    apply Hm in E. lia.
Qed.

Lemma views_zlen m this xs : views m this xs -> zlen xs = m_size this.
Proof.
  intros [Hs H]. apply load_list_length in H. unfold zlen. rewrite H.
  unfold is_size_type in Hs. lia.
Qed.

(** A view of readable memory is shorter than [npos]. *)
Lemma views_lt_npos m this xs :
  addressable m -> views m this xs -> m_size this < npos.
Proof.
  intros Hm [Hs H]. unfold load_range in H.
  destruct (Z.to_nat (m_size this)) as [|n] eqn:E.
  - size_type. lia.
  - apply (load_list_addressable _ _ _ _ Hm) in H. rewrite <- E in H.
    size_type. lia.
Qed.

Lemma views_slice m this xs i n :
  views m this xs -> 0 <= i -> 0 <= n -> i + n <= m_size this ->
  views m (mk_view (m_data this + i) n) (slice xs i n).
Proof.
  intros [Hs H] Hi Hn Hin. split; simpl.
  - unfold is_size_type in *. lia.
  - unfold load_range, slice in *.
    rewrite <- (Z2Nat.id i) at 1 by lia.
    eapply load_list_slice; eauto. lia.
Qed.

Lemma views_default m : views m basic_string_view_default [].
Proof. split; [size_type; simpl; lia | reflexivity]. Qed.

Lemma slice_nil xs i : slice xs i 0 = [].
Proof. reflexivity. Qed.

Lemma slice_all xs : slice xs 0 (zlen xs) = xs.
Proof. unfold slice, zlen. rewrite Nat2Z.id. simpl. apply firstn_all. Qed.

Lemma zlen_slice xs i n :
  0 <= i -> 0 <= n -> i + n <= zlen xs -> zlen (slice xs i n) = n.
Proof.
  unfold slice, zlen. intros Hi Hn H.
  rewrite length_firstn, length_skipn. lia.
Qed.

(** ** substr *)

Lemma substr_Ret this pos count :
  is_size_type (m_size this) -> is_size_type pos -> pos <= m_size this ->
  substr this pos count =
  Ret (let rcount := Z.min count (m_size this - pos) in
       if rcount <=? 0 then basic_string_view_default
       else mk_view (m_data this + pos) rcount).
Proof.
  intros Hs Hp Hle. unfold substr.
  destruct (Z.ltb_spec (m_size this) pos); [lia|].
  rewrite wrap_small by (unfold is_size_type in *; lia). reflexivity.
Qed.

(** The view [substr] returns is a view of the slice. *)
Lemma substr_views m this xs pos count :
  views m this xs -> is_size_type pos -> 0 <= count -> pos <= m_size this ->
  exists r, substr this pos count = Ret r /\
    views m r (slice xs pos (Z.min count (m_size this - pos))).
Proof.
  intros Hv Hp Hc Hle. rewrite substr_Ret; auto; [|apply Hv].
  eexists; split; [reflexivity|]. cbv zeta.
  destruct (Z.leb_spec (Z.min count (m_size this - pos)) 0) as [H0|H0].
  - replace (Z.min count (m_size this - pos)) with 0 by lia.
    rewrite slice_nil. apply views_default.
  - apply views_slice; auto; unfold is_size_type in *; lia.
Qed.

(** C3: for [pos <= size], [substr(pos, count)] returns a view of
    [rcount = min(count, size - pos)] characters that aliases
    [[data + pos, data + pos + rcount)]: its characters are the objects of
    that range, it starts at [data + pos] whenever the range is not empty,
    and it holds that slice of the characters; [substr] throws
    [std::out_of_range] exactly when [pos > size]. *)
Theorem substr_size_and_range this pos count :
  is_size_type (m_size this) -> is_size_type pos -> is_size_type count ->
  (pos <= m_size this ->
   exists r, substr this pos count = Ret r /\
     let rcount := Z.min count (m_size this - pos) in
     m_size r = rcount /\
     aliases r (m_data this + pos) rcount /\
     (0 < rcount -> m_data r = m_data this + pos) /\
     forall m xs, views m this xs -> views m r (slice xs pos rcount)) /\
  (substr this pos count = Throw (out_of_range "Out of range") <->
   pos > m_size this) /\
  (throws (substr this pos count) = true <-> pos > m_size this).
Proof.
  intros Hs Hp Hc. split; [|split].
  - intros Hle. rewrite substr_Ret by auto.
    eexists; split; [reflexivity|]. cbv zeta.
    assert (E : forall r, r = (if Z.min count (m_size this - pos) <=? 0
                               then basic_string_view_default
                               else mk_view (m_data this + pos)
                                      (Z.min count (m_size this - pos))) ->
                m_size r = Z.min count (m_size this - pos) /\
                (0 < m_size r -> m_data r = m_data this + pos)).
    { intros r ->. unfold is_size_type in *.
      destruct (Z.leb_spec (Z.min count (m_size this - pos)) 0); simpl; lia. }
    destruct (E _ eq_refl) as [E1 E2]. split; [exact E1|]. split; [|split].
    + split; [exact E1|]. intros i Hi. rewrite E2; lia.
    + intros Hr. apply E2. lia.
    + intros m xs Hv.
      destruct (substr_views m this xs pos count) as (r & Hr & Hvr);
        auto; [unfold is_size_type in *; lia|].
      rewrite substr_Ret in Hr by auto. inversion Hr as [Hr']. cbv zeta in Hr'.
      rewrite Hr'. exact Hvr.
  - unfold substr. destruct (Z.ltb_spec (m_size this) pos); split; intros H';
      try reflexivity; try lia; discriminate.
  - unfold substr. destruct (Z.ltb_spec (m_size this) pos); split; intros H';
      try reflexivity; try lia; discriminate.
Qed.

(** C4: when the computed length [min(count, size - pos)] is 0, [substr]
    returns the canonical empty view: the very view [basic_string_view()]
    constructs, with null data and zero size, whatever [data + pos] is. *)
Theorem substr_empty_is_default this pos count :
  is_size_type (m_size this) -> is_size_type pos -> is_size_type count ->
  pos <= m_size this -> Z.min count (m_size this - pos) = 0 ->
  exists r, substr this pos count = Ret r /\
    r = basic_string_view_default /\
    m_data r = nullptr /\ m_size r = 0.
Proof.
  intros Hs Hp Hc Hle H0. rewrite substr_Ret by auto. cbv zeta. rewrite H0.
  eexists; split; [reflexivity|]. simpl. repeat split.
Qed.

(** ** Traits::compare *)

Lemma lex_sign_antisym xs ys :
  lex_sign Traits_eq Traits_lt xs ys = - lex_sign Traits_eq Traits_lt ys xs.
Proof.
  revert ys. induction xs as [|x xs IH]; intros [|y ys]; simpl; auto.
  rewrite (Traits_eq_sym y x). destruct (Traits_eq x y) eqn:E; auto.
  rewrite (Traits_lt_total x y E). destruct (Traits_lt x y); reflexivity.
Qed.

Lemma lex_sign_zero xs ys :
  Datatypes.length xs = Datatypes.length ys ->
  (lex_sign Traits_eq Traits_lt xs ys = 0 <-> seq_eqb xs ys = true).
Proof.
  revert ys. induction xs as [|x xs IH]; intros [|y ys]; simpl; intros H;
    try discriminate; [tauto|].
  destruct (Traits_eq x y); simpl.
  - apply IH. now inversion H.
  - destruct (Traits_lt x y); split; intros E; discriminate.
Qed.

Lemma seq_eqb_length xs ys :
  seq_eqb xs ys = true -> Datatypes.length xs = Datatypes.length ys.
Proof.
  revert ys. induction xs as [|x xs IH]; intros [|y ys]; simpl; intros H;
    try discriminate; auto.
  apply andb_true_iff in H as [_ H]. f_equal. auto.
Qed.

Lemma seq_eqb_refl xs : seq_eqb xs xs = true.
Proof.
  induction xs as [|x xs IH]; simpl; auto. now rewrite Traits_eq_refl.
Qed.

Lemma Traits_compare_seq_zero xs ys :
  Datatypes.length xs = Datatypes.length ys ->
  (Traits_compare_seq xs ys = 0 <-> seq_eqb xs ys = true).
Proof.
  intros H. rewrite <- (lex_sign_zero xs ys H), <- (Traits_compare_sgn xs ys H).
  symmetry. apply Z.sgn_null_iff.
Qed.

Lemma Traits_compare_seq_antisym xs ys :
  Datatypes.length xs = Datatypes.length ys ->
  Z.sgn (Traits_compare_seq xs ys) = - Z.sgn (Traits_compare_seq ys xs).
Proof.
  intros H. rewrite (Traits_compare_sgn xs ys H), (Traits_compare_sgn ys xs) by auto.
  apply lex_sign_antisym.
Qed.

Lemma views_range m this xs i n :
  views m this xs -> 0 <= i -> 0 <= n -> i + n <= m_size this ->
  load_range m (m_data this + i) n = Ret (slice xs i n).
Proof. intros Hv Hi Hn H. now apply (views_slice m this xs i n Hv Hi Hn H). Qed.

Lemma views_prefix m this xs n :
  views m this xs -> 0 <= n <= m_size this ->
  load_range m (m_data this) n = Ret (slice xs 0 n).
Proof.
  intros Hv Hn. rewrite <- (views_range m this xs 0 n) by (auto; lia).
  f_equal. lia.
Qed.

(** [Traits::compare] on two readable ranges. *)
Lemma Traits_compare_Ret m p q n xs ys :
  load_range m p n = Ret xs -> load_range m q n = Ret ys ->
  Traits_compare m p q n = Ret (Traits_compare_seq xs ys).
Proof. intros Hp Hq. unfold Traits_compare. now rewrite Hp, Hq. Qed.

(** ** compare *)

Lemma compare_views m a b xs ys :
  views m a xs -> views m b ys -> compare m a b = Ret (compare_value xs ys).
Proof.
  intros Ha Hb. unfold compare, compare_value.
  pose proof (views_zlen _ _ _ Ha) as La. pose proof (views_zlen _ _ _ Hb) as Lb.
  assert (0 <= m_size a /\ 0 <= m_size b) as [? ?] by (destruct Ha, Hb; size_type; lia).
  rewrite (Traits_compare_Ret m _ _ _ (slice xs 0 (Z.min (m_size a) (m_size b)))
             (slice ys 0 (Z.min (m_size a) (m_size b))))
    by (apply views_prefix; auto; lia).
  rewrite La, Lb. cbn [bind].
  destruct (negb _); auto. destruct (_ =? _); auto.
Qed.

Lemma common_prefix_length xs ys :
  Datatypes.length (slice xs 0 (Z.min (zlen xs) (zlen ys))) =
  Datatypes.length (slice ys 0 (Z.min (zlen xs) (zlen ys))).
Proof.
  pose proof (zlen_nonneg xs). pose proof (zlen_nonneg ys).
  apply Nat2Z.inj. fold (zlen (slice xs 0 (Z.min (zlen xs) (zlen ys)))).
  fold (zlen (slice ys 0 (Z.min (zlen xs) (zlen ys)))).
  rewrite !zlen_slice; lia.
Qed.

Lemma compare_value_antisym xs ys :
  Z.sgn (compare_value xs ys) = - Z.sgn (compare_value ys xs).
Proof.
  unfold compare_value. cbv zeta.
  pose proof (Traits_compare_seq_antisym _ _ (common_prefix_length xs ys)) as E.
  rewrite (Z.min_comm (zlen ys) (zlen xs)).
  set (c := Traits_compare_seq (slice xs 0 _) (slice ys 0 _)) in *.
  set (d := Traits_compare_seq (slice ys 0 _) (slice xs 0 _)) in *.
  destruct (Z.eqb_spec c 0) as [Hc|Hc]; destruct (Z.eqb_spec d 0) as [Hd|Hd];
    cbn [negb]; auto.
  - destruct (Z.eqb_spec (zlen xs) (zlen ys)), (Z.eqb_spec (zlen ys) (zlen xs));
      try lia; auto.
    destruct (Z.ltb_spec (zlen xs) (zlen ys)), (Z.ltb_spec (zlen ys) (zlen xs));
      try lia; reflexivity.
  - rewrite Hc in E. simpl in E. assert (E' : Z.sgn d = 0) by lia.
    apply -> Z.sgn_null_iff in E'. contradiction.
  - rewrite Hd in E. simpl in E. apply -> Z.sgn_null_iff in E. contradiction.
Qed.

Lemma slice_full_same_length xs ys :
  zlen xs = zlen ys ->
  slice xs 0 (Z.min (zlen xs) (zlen ys)) = xs /\
  slice ys 0 (Z.min (zlen xs) (zlen ys)) = ys.
Proof.
  intros E. rewrite E, Z.min_id. split; [rewrite <- E|]; apply slice_all.
Qed.

Lemma compare_value_zero xs ys :
  compare_value xs ys = 0 <-> seq_eqb xs ys = true.
Proof.
  unfold compare_value. cbv zeta.
  pose proof (Traits_compare_seq_zero _ _ (common_prefix_length xs ys)) as E.
  set (c := Traits_compare_seq (slice xs 0 _) (slice ys 0 _)) in *.
  destruct (Z.eqb_spec c 0) as [Hc|Hc]; cbn [negb].
  - destruct (Z.eqb_spec (zlen xs) (zlen ys)) as [L|L].
    + destruct (slice_full_same_length xs ys L) as [E1 E2].
      rewrite E1, E2 in E. tauto.
    + split.
      * destruct (zlen xs <? zlen ys); discriminate.
      * intros H. apply seq_eqb_length in H. unfold zlen in L. congruence.
  - split; [contradiction|]. intros H. exfalso. apply Hc, E.
    pose proof (seq_eqb_length _ _ H) as L.
    destruct (slice_full_same_length xs ys) as [E1 E2];
      [unfold zlen; now rewrite L|].
    now rewrite E1, E2.
Qed.

(** Two views of the same characters compare equal. *)
Lemma compare_equal_views m a b xs ys :
  views m a xs -> views m b ys -> seq_eqb xs ys = true ->
  compare m a b = Ret 0.
Proof.
  intros Ha Hb E. rewrite (compare_views m a b xs ys Ha Hb). f_equal.
  now apply compare_value_zero.
Qed.

(** What [compare] returns on two views, apart from the direction of the
    order: opposite signs for the two directions, 0 exactly for the same
    length and characters, and the shorter view first after an equal
    common prefix. *)
Lemma compare_on_views m a b xs ys :
  views m a xs -> views m b ys ->
  compare m a b = Ret (compare_value xs ys) /\
  compare m b a = Ret (compare_value ys xs) /\
  Z.sgn (compare_value xs ys) = - Z.sgn (compare_value ys xs) /\
  (compare_value xs ys = 0 <-> m_size a = m_size b /\ seq_eqb xs ys = true) /\
  (let rlen := Z.min (m_size a) (m_size b) in
   Traits_compare m (m_data a) (m_data b) rlen = Ret 0 ->
   (m_size a < m_size b -> compare_value xs ys < 0 /\ 0 < compare_value ys xs) /\
   (m_size b < m_size a -> 0 < compare_value xs ys /\ compare_value ys xs < 0)).
Proof.
  intros Ha Hb.
  pose proof (views_zlen _ _ _ Ha) as La. pose proof (views_zlen _ _ _ Hb) as Lb.
  split; [now apply compare_views|]. split; [now apply compare_views|].
  split; [apply compare_value_antisym|]. split.
  - rewrite compare_value_zero. split; [|tauto]. intros H. split; auto.
    apply seq_eqb_length in H. unfold zlen in *. lia.
  - cbv zeta. intros H.
    assert (0 <= m_size a /\ 0 <= m_size b) as [? ?]
      by (destruct Ha, Hb; size_type; lia).
    rewrite (Traits_compare_Ret m _ _ _ (slice xs 0 (Z.min (m_size a) (m_size b)))
               (slice ys 0 (Z.min (m_size a) (m_size b)))) in H
      by (apply views_prefix; auto; lia).
    inversion H as [Hz]. rewrite <- La, <- Lb in Hz.
    pose proof (Traits_compare_seq_antisym _ _ (common_prefix_length xs ys)) as E.
    rewrite Hz in E. simpl in E.
    assert (E' : Z.sgn (Traits_compare_seq
                          (slice ys 0 (Z.min (zlen xs) (zlen ys)))
                          (slice xs 0 (Z.min (zlen xs) (zlen ys)))) = 0) by lia.
    clear E. apply -> Z.sgn_null_iff in E'. rename E' into E.
    unfold compare_value. cbv zeta. rewrite (Z.min_comm (zlen ys) (zlen xs)).
    rewrite Hz, E. cbn [Z.eqb negb]. rewrite <- La, <- Lb.
    split; intros L.
    + destruct (Z.eqb_spec (zlen xs) (zlen ys)), (Z.eqb_spec (zlen ys) (zlen xs));
        try lia.
      destruct (Z.ltb_spec (zlen xs) (zlen ys)), (Z.ltb_spec (zlen ys) (zlen xs));
        lia.
    + destruct (Z.eqb_spec (zlen xs) (zlen ys)), (Z.eqb_spec (zlen ys) (zlen xs));
        try lia.
      destruct (Z.ltb_spec (zlen xs) (zlen ys)), (Z.ltb_spec (zlen ys) (zlen xs));
        lia.
Qed.

(** ** operator==, starts_with, ends_with *)

Lemma starts_with_unfold m this sv :
  0 <= m_size this ->
  starts_with m this sv =
  (if m_size this >=? m_size sv then Undefined else Ret false).
Proof.
  intros H0. unfold starts_with, substr.
  destruct (m_size this >=? m_size sv); [|reflexivity].
  destruct (Z.ltb_spec (m_size this) 0); [lia|reflexivity].
Qed.

Lemma ends_with_unfold m this sv :
  is_size_type (m_size this) -> is_size_type (m_size sv) ->
  ends_with m this sv =
  (if m_size this >=? m_size sv then Undefined else Ret false).
Proof.
  intros It Is. unfold ends_with, substr.
  destruct (Z.geb_spec (m_size this) (m_size sv)); [|reflexivity].
  rewrite wrap_small by (size_type; lia).
  destruct (Z.ltb_spec (m_size this) (m_size this - m_size sv));
    [size_type; lia|reflexivity].
Qed.

(** C6: for [0 <= k <= size], [s.starts_with(s.substr(0, k))] and
    [s.ends_with(s.substr(s.size() - k))] do not return [true]: once the
    sizes fit, either function compares with [==], which takes its operands
    by value, and copies its own parameter [sv] with the constructor
    template that has no definition.  In general [starts_with(v)] and
    [ends_with(v)] return [false] for a longer [v] and have no value
    otherwise. *)
Theorem starts_with_and_ends_with_reach_the_undefined_constructor m s v k :
  is_size_type (m_size s) -> is_size_type (m_size v) -> 0 <= k <= m_size s ->
  (exists p, substr s 0 k = Ret p /\ starts_with m s p = Undefined) /\
  (exists q, substr s (wrap (m_size s - k)) npos = Ret q /\
             ends_with m s q = Undefined) /\
  starts_with m s v = (if m_size s >=? m_size v then Undefined else Ret false) /\
  ends_with m s v = (if m_size s >=? m_size v then Undefined else Ret false).
Proof.
  intros Is Iv Hk.
  assert (P : exists p, substr s 0 k = Ret p /\ m_size p = k).
  { rewrite substr_Ret by (auto; size_type; lia).
    eexists. split; [reflexivity|]. cbv zeta.
    replace (Z.min k (m_size s - 0)) with k by lia.
    destruct (Z.leb_spec k 0); cbn; lia. }
  assert (Q : exists q, substr s (m_size s - k) npos = Ret q /\ m_size q = k).
  { rewrite substr_Ret by (auto; size_type; lia).
    eexists. split; [reflexivity|]. cbv zeta.
    replace (Z.min npos (m_size s - (m_size s - k))) with k by (size_type; lia).
    destruct (Z.leb_spec k 0); cbn; lia. }
  destruct P as (p & Hp & Sp). destruct Q as (q & Hq & Sq).
  split; [|split; [|split]].
  - exists p. split; [exact Hp|].
    rewrite starts_with_unfold by (size_type; lia). rewrite Sp.
    destruct (Z.geb_spec (m_size s) k); [reflexivity|lia].
  - rewrite wrap_small by (size_type; lia).
    exists q. split; [exact Hq|].
    rewrite ends_with_unfold by (auto; rewrite Sq; size_type; lia).
    rewrite Sq. destruct (Z.geb_spec (m_size s) k); [reflexivity|lia].
  - apply starts_with_unfold. size_type. lia.
  - now apply ends_with_unfold.
Qed.

(** ** find *)

Lemma Traits_compare_seq_eqb xs ys :
  Datatypes.length xs = Datatypes.length ys ->
  (Traits_compare_seq xs ys =? 0) = seq_eqb xs ys.
Proof.
  intros L. pose proof (Traits_compare_seq_zero xs ys L) as E.
  destruct (Z.eqb_spec (Traits_compare_seq xs ys) 0), (seq_eqb xs ys); auto;
    intuition congruence.
Qed.

(** The test of both search loops: is the needle at [pos]? *)
Lemma compare_at_views m h v H V pos :
  views m h H -> views m v V -> 0 <= pos -> pos + m_size v <= m_size h ->
  exists c,
    Traits_compare m (m_data h + pos) (m_data v) (m_size v) = Ret c /\
    (c =? 0) = seq_eqb (slice H pos (m_size v)) V.
Proof.
  intros Hh Hv Hp Hle.
  assert (Iv : is_size_type (m_size v)) by apply Hv.
  pose proof (views_zlen _ _ _ Hh) as Lh. pose proof (views_zlen _ _ _ Hv) as Lv.
  eexists. split.
  - apply Traits_compare_Ret.
    + apply (views_range m h H pos (m_size v)); auto. size_type; lia.
    + apply Hv.
  - apply Traits_compare_seq_eqb. apply Nat2Z.inj.
    fold (zlen (slice H pos (m_size v))). fold (zlen V).
    rewrite zlen_slice; size_type; lia.
Qed.

Lemma occurs_at_iff m h v H V i :
  views m h H -> views m v V -> 0 <= i -> i + m_size v <= m_size h ->
  (occurs_at H V i <-> seq_eqb (slice H i (m_size v)) V = true).
Proof.
  intros Hh Hv Hi Hle. unfold occurs_at.
  rewrite (views_zlen _ _ _ Hh), (views_zlen _ _ _ Hv). tauto.
Qed.

Lemma find_loop_spec m h v H V :
  views m h H -> views m v V -> m_size h < npos ->
  forall fuel pos,
    0 <= pos -> pos + m_size v <= m_size h + 1 ->
    m_size h + 1 - m_size v - pos < Z.of_nat fuel ->
    exists r, find_loop fuel m h v pos = Ret r /\ first_from H V pos r.
Proof.
  intros Hh Hv Hn.
  assert (Iv : is_size_type (m_size v)) by apply Hv.
  pose proof (views_zlen _ _ _ Hh) as Lh. pose proof (views_zlen _ _ _ Hv) as Lv.
  induction fuel as [|fuel IH]; intros pos Hp Hle Hf; [lia|].
  cbn [find_loop]. rewrite wrap_small by (size_type; lia).
  destruct (Z.leb_spec (pos + m_size v) (m_size h)) as [Hin|Hout].
  - destruct (compare_at_views m h v H V pos Hh Hv Hp Hin) as (c & Hc & Ec).
    rewrite Hc. cbn [bind]. rewrite Ec.
    destruct (seq_eqb (slice H pos (m_size v)) V) eqn:E.
    + exists pos. split; [reflexivity|]. right.
      split; [lia|]. split; [|intros; lia].
      apply (occurs_at_iff m h v); auto.
    + rewrite wrap_small by (size_type; lia).
      destruct (IH (pos + 1)) as (r & Hr & Sr); try lia.
      exists r. split; [exact Hr|].
      assert (N : ~ occurs_at H V pos).
      { rewrite (occurs_at_iff m h v) by auto. congruence. }
      destruct Sr as [[-> Sr]|(Sr1 & Sr2 & Sr3)].
      * left. split; auto. intros i Hi.
        destruct (Z.eq_dec i pos) as [->|]; auto. apply Sr. lia.
      * right. split; [lia|]. split; auto. intros i Hi.
        destruct (Z.eq_dec i pos) as [->|]; auto. apply Sr3. lia.
  - exists npos. split; [reflexivity|]. left. split; auto.
    intros i Hi [_ [O _]]. lia.
Qed.

Lemma first_from_lt_npos m h H V pos r :
  views m h H -> m_size h < npos -> first_from H V pos r ->
  (r = npos <-> forall i, pos <= i -> ~ occurs_at H V i).
Proof.
  intros Hh Hn [[-> N]|(Hr & O & N)]; [tauto|].
  pose proof (views_zlen _ _ _ Hh) as Lh. pose proof (zlen_nonneg V).
  split.
  - intros ->. destruct O as (_ & O & _). lia.
  - intros A. exfalso. apply (A r); auto.
Qed.

(** C1: [find] on a haystack [h] and a needle [v].  When both are empty
    and [pos == 0] it returns 0; when [pos > h.size()] or
    [v.size() > h.size() - pos] it returns [npos]; in every case the value
    returned is the smallest index [i >= pos] at which the slice of [h] of
    [v.size()] characters equals [v] element-wise, and it is [npos] exactly
    when there is no such slice at or after [pos]. *)
Theorem find_returns_first_occurrence fuel m h v H V pos :
  addressable m -> views m h H -> views m v V -> is_size_type pos ->
  m_size h + 1 < Z.of_nat fuel ->
  exists r, find fuel m h v pos = Ret r /\
    (m_size h = 0 /\ m_size v = 0 /\ pos = 0 -> r = 0) /\
    (pos > m_size h \/ m_size v > m_size h - pos -> r = npos) /\
    (r <> npos ->
     pos <= r /\ occurs_at H V r /\ forall i, pos <= i < r -> ~ occurs_at H V i) /\
    (r = npos <-> forall i, pos <= i -> ~ occurs_at H V i).
Proof.
  intros Hm Hh Hv Hp Hf.
  assert (Ih : is_size_type (m_size h)) by apply Hh.
  assert (Iv : is_size_type (m_size v)) by apply Hv.
  pose proof (views_lt_npos m h H Hm Hh) as Hn.
  pose proof (views_zlen _ _ _ Hh) as Lh. pose proof (views_zlen _ _ _ Hv) as Lv.
  assert (Out : pos > m_size h \/ m_size v > m_size h - pos ->
                forall i, pos <= i -> ~ occurs_at H V i).
  { intros C i Hi (_ & O & _). unfold is_size_type in *. lia. }
  assert (S : exists r, find fuel m h v pos = Ret r /\ first_from H V pos r /\
                (m_size h = 0 /\ m_size v = 0 /\ pos = 0 -> r = 0) /\
                (pos > m_size h \/ m_size v > m_size h - pos -> r = npos)).
  { unfold find, empty.
    destruct (Z.eqb_spec (m_size h) 0) as [E1|E1];
      destruct (Z.eqb_spec (m_size v) 0) as [E2|E2];
      destruct (Z.eqb_spec pos 0) as [E3|E3]; cbn [andb].
    1: { exists 0. split; [reflexivity|]. split; [|split; [auto|lia]].
         right. split; [lia|]. split; [|intros; lia].
         apply (occurs_at_iff m h v); auto; try lia.
         rewrite E2. destruct V; [reflexivity|]. rewrite zlen_cons in Lv.
         pose proof (zlen_nonneg V). lia. }
    all: destruct (Z.gtb_spec pos (m_size h)) as [G1|G1]; cbn [orb];
      [exists npos; split; [reflexivity|]; split;
         [left; split; auto; apply Out; lia | split; [lia|auto]] |].
    all: rewrite wrap_small by (size_type; lia).
    all: destruct (Z.gtb_spec (m_size v) (m_size h - pos)) as [G2|G2];
      [exists npos; split; [reflexivity|]; split;
         [left; split; auto; apply Out; lia | split; [lia|auto]] |].
    all: destruct (find_loop_spec m h v H V Hh Hv Hn fuel pos) as (r & Hr & Sr);
      try (size_type; lia).
    all: exists r; split; [exact Hr|]; split; [exact Sr|]; split; lia. }
  destruct S as (r & Hr & Sr & S1 & S2). exists r.
  split; [exact Hr|]. split; [exact S1|]. split; [exact S2|]. split.
  - intros Nr. destruct Sr as [[-> _]|Sr]; [contradiction|exact Sr].
  - apply (first_from_lt_npos m h); auto.
Qed.

(** C10: for an empty needle, [find] returns [pos] whenever
    [pos <= h.size()], the end of the haystack included, and [npos]
    whenever [pos > h.size()], whether or not the haystack is empty. *)
Theorem find_empty_needle fuel m h v pos :
  is_size_type (m_size h) -> is_size_type pos -> m_size v = 0 ->
  (0 < fuel)%nat ->
  (pos <= m_size h -> find fuel m h v pos = Ret pos) /\
  (pos > m_size h -> find fuel m h v pos = Ret npos).
Proof.
  intros Ih Hp Ev Hf. unfold find, empty. rewrite Ev. split; intros C.
  - destruct (Z.eqb_spec (m_size h) 0) as [E1|E1];
      destruct (Z.eqb_spec pos 0) as [E3|E3]; cbn [andb Z.eqb];
      [now subst | | |].
    all: destruct (Z.gtb_spec pos (m_size h)); [lia|]; cbn [orb].
    all: rewrite wrap_small by (size_type; lia).
    all: destruct (Z.gtb_spec 0 (m_size h - pos)); [lia|].
    all: destruct fuel as [|fuel]; [lia|]; cbn [find_loop]; rewrite Ev.
    all: rewrite Z.add_0_r, wrap_small by auto.
    all: destruct (Z.leb_spec pos (m_size h)); [|lia].
    all: unfold Traits_compare, load_range; cbn [Z.to_nat load_list bind].
    all: pose proof (Traits_compare_sgn [] [] eq_refl) as E; simpl in E.
    all: apply -> Z.sgn_null_iff in E; rewrite E; reflexivity.
  - destruct (Z.eqb_spec pos 0) as [E3|E3]; [size_type; lia|].
    rewrite andb_false_r.
    destruct (Z.gtb_spec pos (m_size h)); [reflexivity|lia].
Qed.

(** ** rfind *)

Lemma rfind_loop_exit fuel m h v : rfind_loop (S fuel) m h v npos = Ret npos.
Proof. reflexivity. Qed.

Lemma rfind_loop_spec m h v H V :
  views m h H -> views m v V -> 0 < m_size v <= m_size h ->
  forall fuel pos,
    0 <= pos <= m_size h - m_size v ->
    pos + 1 < Z.of_nat fuel ->
    exists r, rfind_loop fuel m h v pos = Ret r /\ last_upto H V pos r.
Proof.
  intros Hh Hv Hs.
  assert (Ih : is_size_type (m_size h)) by apply Hh.
  induction fuel as [|fuel IH]; intros pos Hp Hf; [lia|].
  cbn [rfind_loop].
  destruct (Z.eqb_spec pos npos) as [E|_]; [size_type; lia|]. cbn [negb].
  destruct (compare_at_views m h v H V pos Hh Hv) as (c & Hc & Ec); try lia.
  rewrite Hc. cbn [bind]. rewrite Ec.
  destruct (seq_eqb (slice H pos (m_size v)) V) eqn:E.
  - exists pos. split; [reflexivity|]. right.
    split; [lia|]. split; [|intros; lia].
    apply (occurs_at_iff m h v); auto; lia.
  - assert (N : ~ occurs_at H V pos).
    { rewrite (occurs_at_iff m h v) by (auto; lia). congruence. }
    destruct (Z.eq_dec pos 0) as [->|Hp0].
    + destruct fuel as [|fuel]; [lia|].
      rewrite wrap_minus_one, rfind_loop_exit.
      exists npos. split; [reflexivity|]. left. split; auto.
      intros i Hi O. destruct (Z.eq_dec i 0) as [->|]; auto.
      destruct O as (O & _). lia.
    + rewrite wrap_small by (size_type; lia).
      destruct (IH (pos - 1)) as (r & Hr & Sr); try lia.
      exists r. split; [exact Hr|].
      destruct Sr as [[-> Sr]|(Sr1 & Sr2 & Sr3)].
      * left. split; auto. intros i Hi.
        destruct (Z.eq_dec i pos) as [->|]; auto. apply Sr. lia.
      * right. split; [lia|]. split; auto. intros i Hi.
        destruct (Z.eq_dec i pos) as [->|]; auto. apply Sr3. lia.
Qed.

(** C5: [rfind] on a haystack [h], a needle [v] and an upper bound [pos].
    An empty needle gives [min(pos, h.size())]; a needle longer than the
    haystack gives [npos]; otherwise the value returned is the largest index
    [i <= min(pos, h.size() - v.size())] at which the slice of [h] of
    [v.size()] characters equals [v], and it is [npos] exactly when no index
    of that range matches. *)
Theorem rfind_returns_last_occurrence fuel m h v H V pos :
  views m h H -> views m v V -> is_size_type pos ->
  m_size h + 1 < Z.of_nat fuel ->
  exists r, rfind fuel m h v pos = Ret r /\
    (m_size v = 0 -> r = Z.min pos (m_size h)) /\
    (m_size v > m_size h -> r = npos) /\
    (0 < m_size v <= m_size h ->
     let bound := Z.min pos (m_size h - m_size v) in
     (r <> npos ->
      r <= bound /\ occurs_at H V r /\
      forall i, r < i <= bound -> ~ occurs_at H V i) /\
     (r = npos <-> forall i, i <= bound -> ~ occurs_at H V i)).
Proof.
  intros Hh Hv Hp Hf.
  assert (Ih : is_size_type (m_size h)) by apply Hh.
  assert (Iv : is_size_type (m_size v)) by apply Hv.
  pose proof (views_zlen _ _ _ Hh) as Lh. pose proof (views_zlen _ _ _ Hv) as Lv.
  unfold rfind, empty.
  destruct (Z.eqb_spec (m_size v) 0) as [E|E].
  { eexists. split; [reflexivity|]. split; [auto|].
    unfold is_size_type in *. split; intros; lia. }
  destruct (Z.gtb_spec (m_size v) (m_size h)) as [G|G].
  { eexists. split; [reflexivity|]. split; [lia|]. split; [auto|lia]. }
  rewrite wrap_small by (size_type; lia).
  destruct (rfind_loop_spec m h v H V Hh Hv) with
    (fuel := fuel) (pos := Z.min pos (m_size h - m_size v)) as (r & Hr & Sr);
    try (size_type; lia).
  exists r. split; [exact Hr|]. split; [lia|]. split; [lia|].
  intros _. cbv zeta. split.
  - intros Nr. destruct Sr as [[-> _]|Sr]; [contradiction|exact Sr].
  - destruct Sr as [[-> N]|(Hr1 & O & N)]; [tauto|]. split.
    + intros ->. destruct O as (_ & O & _). size_type. lia.
    + intros A. exfalso. apply (A r); auto.
Qed.

(** ** Construction from a null-terminated buffer *)

Lemma Traits_length_from_spec m s rest :
  forall fuel i,
    0 <= i -> i + zlen rest + 1 < size_type_modulus ->
    load_list m (s + i) (Datatypes.length rest + 1) = Ret (rest ++ [Traits_nul]) ->
    forallb (fun c => negb (Traits_eq c Traits_nul)) rest = true ->
    (Datatypes.length rest < fuel)%nat ->
    Traits_length_from fuel m s i = Ret (i + zlen rest).
Proof.
  induction rest as [|c rest IH]; intros fuel i Hi Hb Hl Hn Hf;
    (destruct fuel as [|fuel]; [lia|]); cbn [Traits_length_from].
  - simpl in Hl. apply bind_Ret_inv in Hl as (c & Hc & Hl).
    inversion Hl; subst. rewrite Hc. cbn [bind].
    rewrite Traits_eq_refl. f_equal. unfold zlen. simpl. lia.
  - cbn [Datatypes.length Nat.add load_list app] in Hl.
    apply bind_Ret_inv in Hl as (c' & Hc & Hl).
    apply bind_Ret_inv in Hl as (cs & Hcs & Hl). inversion Hl; subst.
    rewrite Hc. cbn [bind]. cbn [forallb] in Hn.
    apply andb_true_iff in Hn as [Hn1 Hn2].
    apply negb_true_iff in Hn1. rewrite Hn1.
    rewrite zlen_cons in *.
    rewrite wrap_small by (pose proof (zlen_nonneg rest); size_type; lia).
    rewrite (IH fuel (i + 1)); auto; try lia.
    + f_equal. lia.
    + replace (s + (i + 1)) with (s + i + 1) by lia. exact Hcs.
    + simpl in Hf. lia.
Qed.

Lemma c_string_bounds m s xs :
  addressable m -> c_string m s xs ->
  0 < s /\ zlen xs + 1 < size_type_modulus.
Proof.
  intros Hm [Hl _]. unfold load_range in Hl.
  pose proof (zlen_nonneg xs).
  replace (Z.to_nat (zlen xs + 1)) with (S (Datatypes.length xs)) in Hl
    by (unfold zlen; lia).
  apply (load_list_addressable _ _ _ _ Hm) in Hl. unfold zlen. lia.
Qed.

Lemma c_string_views m s xs :
  addressable m -> c_string m s xs -> views m (mk_view s (zlen xs)) xs.
Proof.
  intros Hm Hc. pose proof (c_string_bounds m s xs Hm Hc) as [_ Hb].
  pose proof (zlen_nonneg xs). destruct Hc as [Hl _].
  split; cbn [m_size m_data]; [size_type; lia|].
  unfold load_range in *.
  pose proof (load_list_slice m s _ _ 0 (Z.to_nat (zlen xs)) Hl) as E.
  replace (s + Z.of_nat 0) with s in E by lia. rewrite E by lia.
  f_equal. cbn [skipn]. unfold zlen. rewrite Nat2Z.id.
  rewrite firstn_app, Nat.sub_diag, firstn_all. simpl. apply app_nil_r.
Qed.

Lemma basic_string_view_cstr_Ret fuel m s xs :
  addressable m -> c_string m s xs -> (Datatypes.length xs < fuel)%nat ->
  basic_string_view_cstr fuel m s = Ret (mk_view s (zlen xs)).
Proof.
  intros Hm Hc Hf. pose proof (c_string_bounds m s xs Hm Hc) as [Hs Hb].
  destruct Hc as [Hl Hn].
  unfold basic_string_view_cstr, __strlen, Traits_length.
  destruct (Z.eqb_spec s nullptr) as [E|_]; [unfold nullptr in E; lia|].
  rewrite (Traits_length_from_spec m s xs fuel 0); auto; try lia.
  unfold load_range in Hl. rewrite Z.add_0_r.
  replace (Datatypes.length xs + 1)%nat with (Z.to_nat (zlen xs + 1))
    by (unfold zlen; lia).
  exact Hl.
Qed.

(** C9: built from a pointer [s] to the characters [xs] followed by a null
    terminator, the view is [s] with the number of characters before the
    terminator as its size, and it views exactly [xs]; built from a null
    pointer, it has size 0 and null data, whatever the memory holds and
    without a single step of the scan. *)
Theorem construct_from_null_terminated fuel m s xs :
  addressable m -> c_string m s xs -> (Datatypes.length xs < fuel)%nat ->
  (exists v, basic_string_view_cstr fuel m s = Ret v /\
     m_data v = s /\ m_size v = zlen xs /\ views m v xs) /\
  (forall m', basic_string_view_cstr 0 m' nullptr = Ret (mk_view nullptr 0)) /\
  (forall fuel' m',
     basic_string_view_cstr fuel' m' nullptr = Ret basic_string_view_default).
Proof.
  intros Hm Hc Hf. split; [|split].
  - exists (mk_view s (zlen xs)).
    split; [now apply basic_string_view_cstr_Ret|].
    split; [reflexivity|]. split; [reflexivity|]. now apply c_string_views.
  - reflexivity.
  - reflexivity.
Qed.

(** ** copy *)

Lemma load_list_nth m a n xs :
  load_list m a n = Ret xs <->
  Datatypes.length xs = n /\
  forall i, (i < n)%nat -> m (a + Z.of_nat i) = nth_error xs i /\ m (a + Z.of_nat i) <> None.
Proof.
  revert a xs. induction n as [|n IH]; intros a xs; cbn [load_list].
  - split.
    + intros E. inversion E. split; [reflexivity|]. intros; lia.
    + intros [L _]. destruct xs; [reflexivity|discriminate].
  - split.
    + intros E. apply bind_Ret_inv in E as (c & Hc & E).
      apply bind_Ret_inv in E as (cs & Hcs & E). inversion E; subst.
      apply IH in Hcs as [L N]. split; [simpl; lia|].
      intros [|i] Hi.
      * rewrite Z.add_0_r. unfold load in Hc. destruct (m a); inversion Hc.
        split; [reflexivity|discriminate].
      * replace (a + Z.of_nat (S i)) with (a + 1 + Z.of_nat i) by lia.
        apply N. lia.
    + intros [L N]. destruct xs as [|c cs]; [discriminate|].
      destruct (N 0%nat) as [N0 _]; [lia|]. rewrite Z.add_0_r in N0. simpl in N0.
      unfold load. rewrite N0. cbn [bind].
      assert (E : load_list m (a + 1) n = Ret cs).
      { apply IH. split; [simpl in L; lia|]. intros i Hi.
        replace (a + 1 + Z.of_nat i) with (a + Z.of_nat (S i)) by lia.
        apply (N (S i)). lia. }
      now rewrite E.
Qed.

Lemma store_list_Ret m a cs :
  (forall i, 0 <= i < zlen cs -> m (a + i) <> None) ->
  exists m', store_list m a cs = Ret m' /\
    forall x, m' x = if (a <=? x) && (x <? a + zlen cs)
                     then nth_error cs (Z.to_nat (x - a))
                     else m x.
Proof.
  revert m a. induction cs as [|c cs IH]; intros m a Hw; cbn [store_list].
  - exists m. split; [reflexivity|]. intros x. unfold zlen. simpl.
    destruct (Z.leb_spec a x), (Z.ltb_spec x (a + 0)); simpl; auto; lia.
  - pose proof (zlen_nonneg cs) as Hz. rewrite zlen_cons in *.
    unfold store. destruct (m a) eqn:Ea.
    2:{ exfalso. apply (Hw 0); [lia|]. now rewrite Z.add_0_r. }
    cbn [bind].
    destruct (IH (fun x => if x =? a then Some c else m x) (a + 1))
      as (m' & Hs & Hm').
    { intros i Hi. cbv beta. destruct (Z.eqb_spec (a + 1 + i) a); [discriminate|].
      replace (a + 1 + i) with (a + (i + 1)) by lia. apply Hw. lia. }
    exists m'. split; [exact Hs|]. intros x. rewrite Hm'.
    destruct (Z.eqb_spec x a) as [Exa|Hxa];
      destruct (Z.leb_spec (a + 1) x), (Z.ltb_spec x (a + 1 + zlen cs)),
        (Z.leb_spec a x), (Z.ltb_spec x (a + (zlen cs + 1)));
      cbn [andb]; try lia; try reflexivity.
    all: try (rewrite Exa, Z.sub_diag; reflexivity).
    all: replace (Z.to_nat (x - a)) with (S (Z.to_nat (x - (a + 1)))) by lia.
    all: reflexivity.
Qed.

(** Between ranges that do not overlap, [Traits::copy] puts the source
    characters at [dest] and changes nothing else. *)
Lemma Traits_copy_Ret m dest src n xs old :
  0 <= n -> load_range m src n = Ret xs -> load_range m dest n = Ret old ->
  dest + n <= src \/ src + n <= dest ->
  exists m', Traits_copy m dest src n = Ret m' /\
    load_range m' dest n = Ret xs /\
    forall x, ~ (dest <= x < dest + n) -> m' x = m x.
Proof.
  intros Hn Hsrc Hdest Hd. unfold Traits_copy.
  destruct (Z.ltb_spec dest (src + n)), (Z.ltb_spec src (dest + n)); cbn [andb];
    try lia.
  all: rewrite Hsrc; cbn [bind].
  all: pose proof (load_list_length _ _ _ _ Hsrc) as Lx.
  all: assert (Zx : zlen xs = n) by (unfold zlen; lia).
  all: destruct (store_list_Ret m dest xs) as (m' & Hs & Hm');
    [ intros i Hi; apply load_list_nth in Hdest as [_ N];
      replace i with (Z.of_nat (Z.to_nat i)) by lia; apply N; lia | ].
  all: exists m'; split; [exact Hs|]; split;
    [ apply load_list_nth; split; [exact Lx|]; intros i Hi; rewrite Hm';
      destruct (Z.leb_spec dest (dest + Z.of_nat i)),
        (Z.ltb_spec (dest + Z.of_nat i) (dest + zlen xs)); cbn [andb];
      first [ lia
            | replace (Z.to_nat (dest + Z.of_nat i - dest)) with i by lia;
              split; [reflexivity|]; apply nth_error_Some; lia ]
    | intros x Hx; rewrite Hm';
      destruct (Z.leb_spec dest x), (Z.ltb_spec x (dest + zlen xs));
        cbn [andb]; auto; lia ].
Qed.

(** C8: on the view built from a null-terminated buffer holding [xs],
    [copy(dest, count, pos)] with [pos <= size] into an array that does not
    overlap the characters copied writes the
    [rcount = min(count, size - pos)] characters of the view that start at
    [pos] to [dest], changes no other character, and returns [rcount];
    copying the whole view into a destination of the same size leaves the
    characters [xs] there. *)
Theorem copy_round_trip fuel m s xs dest count pos old :
  addressable m -> c_string m s xs -> (Datatypes.length xs < fuel)%nat ->
  is_size_type count -> is_size_type pos -> pos <= zlen xs ->
  let rcount := Z.min count (zlen xs - pos) in
  load_range m dest rcount = Ret old ->
  dest + rcount <= s + pos \/ s + pos + rcount <= dest ->
  exists v m',
    basic_string_view_cstr fuel m s = Ret v /\
    copy m v dest count pos = Ret (m', rcount) /\
    load_range m' dest rcount = Ret (slice xs pos rcount) /\
    (forall x, ~ (dest <= x < dest + rcount) -> m' x = m x) /\
    (pos = 0 -> count = size v -> load_range m' dest (size v) = Ret xs).
Proof.
  intros Hm Hc Hf Hcount Hpos Hle rcount Hdest Hd.
  pose proof (c_string_views m s xs Hm Hc) as Hv.
  pose proof (c_string_bounds m s xs Hm Hc) as [_ Hb].
  exists (mk_view s (zlen xs)).
  assert (Hr : 0 <= rcount /\ pos + rcount <= zlen xs)
    by (unfold rcount; size_type; lia).
  destruct (Traits_copy_Ret m dest (s + pos) rcount (slice xs pos rcount) old)
    as (m' & Hcp & Hl & Hx); auto; try lia.
  { apply (views_range m (mk_view s (zlen xs)) xs pos rcount); auto;
      cbn [m_size]; size_type; lia. }
  exists m'. split; [now apply basic_string_view_cstr_Ret|].
  split; [|split; [exact Hl|split; [exact Hx|]]].
  - unfold copy. cbn [m_size m_data].
    destruct (Z.ltb_spec (zlen xs) pos); [lia|].
    rewrite wrap_small by (pose proof (zlen_nonneg xs); size_type; lia).
    fold rcount. rewrite Hcp. reflexivity.
  - unfold size. cbn [m_size]. intros -> ->.
    replace rcount with (zlen xs) in Hl by (unfold rcount; lia).
    now rewrite slice_all in Hl.
Qed.

(** ** Which calls throw *)

Lemma throws_load m a : throws (load m a) = false.
Proof. unfold load. destruct (m a); reflexivity. Qed.

Lemma throws_load_range m p n : throws (load_range m p n) = false.
Proof. apply load_list_no_throw. Qed.

Lemma throws_store_list m a cs : throws (store_list m a cs) = false.
Proof.
  revert m a. induction cs as [|c cs IH]; intros m a; cbn [store_list]; auto.
  unfold store. destruct (m a); cbn [bind]; auto.
Qed.

Lemma throws_Traits_compare m p q n : throws (Traits_compare m p q n) = false.
Proof.
  unfold Traits_compare.
  apply throws_bind; [apply throws_load_range|intros xs].
  apply throws_bind; [apply throws_load_range|reflexivity].
Qed.

Lemma throws_Traits_find m p n c : throws (Traits_find m p n c) = false.
Proof.
  unfold Traits_find. apply throws_bind; [apply throws_load_range|reflexivity].
Qed.

Lemma throws_Traits_copy m dest src n : throws (Traits_copy m dest src n) = false.
Proof.
  unfold Traits_copy. destruct (_ && _); [reflexivity|].
  apply throws_bind; [apply throws_load_range|intros; apply throws_store_list].
Qed.

Lemma throws_Traits_length_from fuel m s i :
  throws (Traits_length_from fuel m s i) = false.
Proof.
  revert i. induction fuel as [|fuel IH]; intros i; cbn [Traits_length_from]; auto.
  apply throws_bind; [apply throws_load|intros c].
  destruct (Traits_eq c Traits_nul); auto.
Qed.

Lemma Traits_length_from_size_type fuel m s i n :
  is_size_type i -> Traits_length_from fuel m s i = Ret n -> is_size_type n.
Proof.
  revert i. induction fuel as [|fuel IH]; intros i Hi; cbn [Traits_length_from];
    [discriminate|].
  intros E. apply bind_Ret_inv in E as (c & _ & E).
  destruct (Traits_eq c Traits_nul).
  - inversion E; subst. exact Hi.
  - apply (IH (wrap (i + 1))); auto. apply wrap_is_size_type.
Qed.

Lemma throws_basic_string_view_cstr fuel m s :
  throws (basic_string_view_cstr fuel m s) = false.
Proof.
  unfold basic_string_view_cstr, __strlen, Traits_length.
  apply throws_bind; [|reflexivity].
  destruct (s =? nullptr); [reflexivity|apply throws_Traits_length_from].
Qed.

Lemma basic_string_view_cstr_size_type fuel m s v :
  basic_string_view_cstr fuel m s = Ret v -> is_size_type (m_size v).
Proof.
  unfold basic_string_view_cstr, __strlen, Traits_length. intros E.
  apply bind_Ret_inv in E as (n & Hn & E). inversion E; subst. cbn [m_size].
  destruct (s =? nullptr).
  - inversion Hn. size_type. lia.
  - apply (Traits_length_from_size_type fuel m s 0); auto. size_type. lia.
Qed.

Lemma throws_compare m a b : throws (compare m a b) = false.
Proof.
  unfold compare. apply throws_bind; [apply throws_Traits_compare|intros c].
  destruct (negb _); auto. destruct (_ =? _); auto.
Qed.

Lemma throws_substr this pos count :
  throws (substr this pos count) = (pos >? m_size this).
Proof.
  unfold substr. rewrite Z.gtb_ltb. destruct (m_size this <? pos); reflexivity.
Qed.

Lemma throws_operator_eq m a b : throws (operator_eq m a b) = false.
Proof. reflexivity. Qed.

Lemma throws_starts_with m this sv :
  is_size_type (m_size this) -> throws (starts_with m this sv) = false.
Proof.
  intros It. unfold starts_with. destruct (_ >=? _); [|reflexivity].
  apply throws_bind; [|intros; reflexivity].
  rewrite throws_substr. destruct (Z.gtb_spec 0 (m_size this)); auto.
  size_type. lia.
Qed.

Lemma throws_ends_with m this sv :
  is_size_type (m_size this) -> is_size_type (m_size sv) ->
  throws (ends_with m this sv) = false.
Proof.
  intros It Is. unfold ends_with.
  destruct (Z.geb_spec (m_size this) (m_size sv)); [|reflexivity].
  apply throws_bind; [|intros; reflexivity].
  rewrite throws_substr, wrap_small by (size_type; lia).
  destruct (Z.gtb_spec (m_size this - m_size sv) (m_size this)); auto.
  size_type. lia.
Qed.

Lemma throws_find_loop fuel m this v pos :
  throws (find_loop fuel m this v pos) = false.
Proof.
  revert pos. induction fuel as [|fuel IH]; intros pos; cbn [find_loop]; auto.
  destruct (_ <=? _); [|reflexivity].
  apply throws_bind; [apply throws_Traits_compare|intros c].
  destruct (c =? 0); auto.
Qed.

Lemma throws_find fuel m this v pos : throws (find fuel m this v pos) = false.
Proof.
  unfold find. destruct (_ && _); [reflexivity|].
  destruct (_ || _); [reflexivity|apply throws_find_loop].
Qed.

Lemma throws_rfind_loop fuel m this v pos :
  throws (rfind_loop fuel m this v pos) = false.
Proof.
  revert pos. induction fuel as [|fuel IH]; intros pos; cbn [rfind_loop]; auto.
  destruct (negb _); [|reflexivity].
  apply throws_bind; [apply throws_Traits_compare|intros c].
  destruct (c =? 0); auto.
Qed.

Lemma throws_rfind fuel m this v pos : throws (rfind fuel m this v pos) = false.
Proof.
  unfold rfind. destruct (empty v); [reflexivity|].
  destruct (_ >? _); [reflexivity|apply throws_rfind_loop].
Qed.

Lemma throws_find_first_loop wanted fuel m this v pos :
  throws (find_first_loop wanted fuel m this v pos) = false.
Proof.
  revert pos. induction fuel as [|fuel IH]; intros pos; cbn [find_first_loop]; auto.
  destruct (_ <? _); [|reflexivity].
  apply throws_bind; [apply throws_load|intros c].
  apply throws_bind; [apply throws_Traits_find|intros q].
  destruct (Bool.eqb _ _); auto.
Qed.

Lemma throws_find_last_loop wanted fuel m this v pos :
  throws (find_last_loop wanted fuel m this v pos) = false.
Proof.
  revert pos. induction fuel as [|fuel IH]; intros pos; cbn [find_last_loop]; auto.
  destruct (negb _); [|reflexivity].
  apply throws_bind; [apply throws_load|intros c].
  apply throws_bind; [apply throws_Traits_find|intros q].
  destruct (Bool.eqb _ _); auto.
Qed.

Lemma throws_find_last m wanted fuel this v pos :
  throws (if empty this then Ret npos
          else find_last_loop wanted fuel m this v
                 (Z.min pos (wrap (m_size this - 1)))) = false.
Proof. destruct (empty this); [reflexivity|apply throws_find_last_loop]. Qed.

Lemma throws_after_cstr {A : Type} fuel m s (k : basic_string_view -> outcome A) :
  (forall v, is_size_type (m_size v) -> throws (k v) = false) ->
  throws (v <- basic_string_view_cstr fuel m s ;; k v) = false.
Proof.
  intros Hk. destruct (basic_string_view_cstr fuel m s) as [v| | |] eqn:E;
    cbn [bind]; auto.
  - apply Hk. eapply basic_string_view_cstr_size_type; eauto.
  - pose proof (throws_basic_string_view_cstr fuel m s) as T.
    rewrite E in T. discriminate.
Qed.

Lemma throws_after_substr {A : Type} this pos count (k : basic_string_view -> outcome A) :
  (forall v, throws (k v) = false) ->
  throws (v <- substr this pos count ;; k v) = (pos >? m_size this).
Proof.
  intros Hk. rewrite <- (throws_substr this pos count).
  destruct (substr this pos count); cbn [bind throws]; auto.
Qed.

Ltac no_throw :=
  repeat first
    [ reflexivity
    | assumption
    | apply throws_load
    | apply throws_compare
    | apply throws_operator_eq
    | apply throws_basic_string_view_cstr
    | apply throws_Traits_copy
    | apply throws_find
    | apply throws_rfind
    | apply throws_find_first_loop
    | apply throws_find_last
    | apply throws_starts_with
    | apply throws_ends_with
    | apply throws_after_cstr; intros
    | apply throws_bind; [|intros]
    | match goal with
      | |- throws (if ?b then _ else _) = false => destruct b
      end ].

Ltac unfold_overloads :=
  unfold index, front, back,
    compare_sub, compare_sub_sub, compare_cstr, compare_sub_cstr, compare_sub_count,
    operator_ne, operator_lt, operator_gt, operator_le, operator_ge,
    starts_with_char, starts_with_cstr, ends_with_char, ends_with_cstr,
    find_char, find_count, find_cstr, rfind_char, rfind_count, rfind_cstr,
    find_first_of_char, find_first_of_count, find_first_of_cstr, find_first_of,
    find_first_not_of_char, find_first_not_of_count, find_first_not_of_cstr,
    find_first_not_of,
    find_last_of_char, find_last_of_count, find_last_of_cstr, find_last_of,
    find_last_not_of_char, find_last_not_of_count, find_last_not_of_cstr,
    find_last_not_of.

(** C7, as the code has it: the only exception is [std::out_of_range]; a
    well-typed call throws it exactly when it is [at] with [pos >= size],
    or [substr], [copy] or a [compare] overload that slices first with a
    start position beyond the length of the view it slices; no [find]
    overload and no other operation throws. *)
Theorem out_of_range_raised_exactly_when fuel m this (c : call CharT) :
  well_typed this c ->
  throws (run fuel m this c) = raises this c /\
  (forall e, run fuel m this c = Throw e -> exists what, e = out_of_range what).
Proof.
  intros Hw. split; [|intros [what] _; now exists what].
  assert (It : is_size_type (m_size this)) by (now inversion Hw).
  assert (Ia : forall v, In v (view_arguments c) -> is_size_type (m_size v)).
  { intros v Hv. inversion Hw as [|? ? _ Hr]; subst.
    rewrite Forall_forall in Hr. now apply Hr. }
  destruct c; cbn [run raises]; rewrite throws_done; unfold_overloads;
    try (specialize (Ia _ (or_introl eq_refl))); try solve [no_throw].
  - (* at *)
    unfold at_. destruct (Z.ltb_spec pos (m_size this)), (Z.geb_spec pos (m_size this));
      try lia; first [apply throws_load | reflexivity].
  - (* copy *)
    unfold copy. rewrite Z.gtb_ltb. destruct (m_size this <? pos); [reflexivity|].
    no_throw.
  - (* substr *)
    apply throws_substr.
  - (* compare(pos1, count1, v) *)
    apply throws_after_substr. intros; reflexivity.
  - (* compare(pos1, count1, v, pos2, count2) *)
    rewrite (Z.gtb_ltb pos1). unfold substr at 1.
    destruct (m_size this <? pos1); cbn [bind throws orb]; auto.
    apply throws_after_substr. intros; apply throws_compare.
  - (* compare(pos1, count1, s) *)
    apply throws_after_substr. intros. no_throw.
  - (* compare(pos1, count1, s, count2) *)
    apply throws_after_substr. intros; apply throws_compare.
Qed.

End Proofs.

(** ** Concrete calls on [string_view] *)

Lemma no_memory_addressable : addressable no_memory.
Proof. intros a c H. discriminate. Qed.

Lemma place_addressable a cs m :
  0 < a -> a + zlen cs < size_type_modulus -> addressable m ->
  addressable (place a cs m).
Proof.
  intros Ha Hb Hm x c. unfold place.
  destruct (Z.leb_spec a x), (Z.ltb_spec x (a + zlen cs)); cbn [andb];
    try apply Hm.
  intros _. lia.
Qed.

Lemma example_memory_addressable : addressable example_memory.
Proof.
  unfold example_memory.
  repeat (apply place_addressable; [reflexivity | reflexivity | ]).
  apply no_memory_addressable.
Qed.

Lemma hello_views : views example_memory hello hello_chars.
Proof. split; [split; [discriminate|reflexivity]|reflexivity]. Qed.

Lemma ell_views : views example_memory ell ell_chars.
Proof. split; [split; [discriminate|reflexivity]|reflexivity]. Qed.

Lemma hello_c_string : c_string example_memory 100 hello_chars.
Proof. split; reflexivity. Qed.

(** [string_view("hello").find("ell")] is 1, the first and only place where
    the needle occurs. *)
Lemma find_ell_in_hello :
  exists r, find 10 example_memory hello ell 0 = Ret r /\
    r = 1 /\ occurs_at hello_chars ell_chars r.
Proof.
  destruct (find_returns_first_occurrence 10 example_memory hello ell
              hello_chars ell_chars 0) as (r & Hr & _ & _ & Hf & _).
  - apply example_memory_addressable.
  - apply hello_views.
  - apply ell_views.
  - split; [discriminate|reflexivity].
  - reflexivity.
  - exists r. split; [exact Hr|].
    assert (E : r = 1) by (vm_compute in Hr; congruence).
    split; [exact E|]. apply Hf. rewrite E. discriminate.
Defined.

(** [string_view("hello").substr(1, 3)] has three characters, ["ell"]. *)
Lemma substr_hello_1_3 :
  exists r, substr hello 1 3 = Ret r /\ m_size r = 3 /\
    views example_memory r ell_chars.
Proof.
  destruct (substr_size_and_range (CharT := ascii) hello 1 3)
    as (H & _).
  - split; [discriminate|reflexivity].
  - split; [discriminate|reflexivity].
  - split; [discriminate|reflexivity].
  - destruct H as (r & Hr & Hs & _ & _ & Hv); [discriminate|].
    exists r. split; [exact Hr|]. split; [exact Hs|].
    apply (Hv example_memory hello_chars hello_views).
Defined.

(** [string_view("hello").substr(5, 3)] is the default-constructed view. *)
Lemma substr_hello_5_3 :
  exists r, substr hello 5 3 = Ret r /\ r = basic_string_view_default.
Proof.
  destruct (substr_empty_is_default hello 5 3) as (r & Hr & Hd & _).
  - split; [discriminate|reflexivity].
  - split; [discriminate|reflexivity].
  - split; [discriminate|reflexivity].
  - discriminate.
  - reflexivity.
  - exists r. auto.
Defined.

(** [string_view("hello").rfind("ell")] is 1. *)
Lemma rfind_ell_in_hello :
  exists r, rfind 10 example_memory hello ell npos = Ret r /\
    r = 1 /\ occurs_at hello_chars ell_chars r.
Proof.
  destruct (rfind_returns_last_occurrence 10 example_memory hello ell
              hello_chars ell_chars npos) as (r & Hr & _ & _ & Hf).
  - apply hello_views.
  - apply ell_views.
  - split; [discriminate|reflexivity].
  - reflexivity.
  - exists r. split; [exact Hr|].
    assert (E : r = 1) by (vm_compute in Hr; congruence).
    split; [exact E|].
    destruct Hf as (Hf & _); [split; [reflexivity|discriminate]|].
    apply Hf. rewrite E. discriminate.
Defined.

(** [hello.starts_with(hello.substr(0, 2))] and
    [hello.ends_with(hello.substr(3))] have no value. *)
Lemma hello_starts_and_ends_with_its_slices :
  (exists p, substr hello 0 2 = Ret p /\
             starts_with example_memory hello p = Undefined) /\
  (exists q, substr hello (wrap (m_size hello - 2)) npos = Ret q /\
             ends_with example_memory hello q = Undefined).
Proof.
  destruct (starts_with_and_ends_with_reach_the_undefined_constructor
              example_memory hello ell 2) as (H1 & H2 & _).
  - split; [discriminate|reflexivity].
  - split; [discriminate|reflexivity].
  - split; discriminate.
  - split; [exact H1|exact H2].
Defined.

(** [string_view("hello").copy(dest, 1, 6)] throws. *)
Lemma copy_beyond_the_end_throws :
  throws (run 0 example_memory hello (call_copy 300 1 6)) = true.
Proof.
  destruct (out_of_range_raised_exactly_when 0 example_memory hello
              (call_copy 300 1 6)) as (H & _).
  - repeat constructor; discriminate.
  - rewrite H. reflexivity.
Defined.

(** Copying the view of ["hello"] into the eight-character array at 300
    puts ["hello"] there. *)
Lemma copy_hello :
  exists v m',
    basic_string_view_cstr 10 example_memory 100 = Ret v /\
    copy example_memory v 300 5 0 = Ret (m', 5) /\
    load_range m' 300 5 = Ret hello_chars.
Proof.
  destruct (copy_round_trip 10 example_memory 100 hello_chars 300 5 0
              (list_ascii_of_string "....."))
    as (v & m' & Hv & Hc & Hl & _).
  - apply example_memory_addressable.
  - apply hello_c_string.
  - simpl. lia.
  - split; [discriminate|reflexivity].
  - split; [discriminate|reflexivity].
  - discriminate.
  - reflexivity.
  - right. cbn. lia.
  - exists v, m'. auto.
Defined.

(** [string_view("hello")] has five characters. *)
Lemma construct_hello :
  exists v, basic_string_view_cstr 10 example_memory 100 = Ret v /\
    m_data v = 100 /\ m_size v = 5.
Proof.
  destruct (construct_from_null_terminated 10 example_memory 100 hello_chars)
    as ((v & Hv & Hd & Hs & _) & _).
  - apply example_memory_addressable.
  - apply hello_c_string.
  - simpl. lia.
  - exists v. auto.
Defined.

(** Searching ["hello"] for an empty needle from its end gives 5. *)
Lemma find_empty_needle_at_the_end :
  find 1 example_memory hello basic_string_view_default 5 = Ret 5.
Proof.
  destruct (find_empty_needle 1 example_memory hello basic_string_view_default 5)
    as (H & _).
  - split; [discriminate|reflexivity].
  - split; [discriminate|reflexivity].
  - reflexivity.
  - lia.
  - apply H. discriminate.
Defined.

(** *** The scenarios of the specification *)

Example find_world_in_hello_world :
  on_literals 1000 1100 (fun a b => find 20 scenario_memory a b 0) = Ret 6.
Proof. reflexivity. Qed.

Example substr_hello_is_ell :
  (s <- substr hello 1 3 ;; compare example_memory s ell) = Ret 0.
Proof. reflexivity. Qed.

Example compare_abc_abd :
  on_literals 1200 1300 (fun a b => c <- compare scenario_memory a b ;; Ret (c <? 0))
  = Ret true.
Proof. reflexivity. Qed.

Example rfind_empty_in_empty :
  on_literals 1600 1600 (fun a b => rfind 20 scenario_memory a b npos) = Ret 0.
Proof. reflexivity. Qed.

Example rfind_empty_in_abc :
  on_literals 1200 1600 (fun a b => rfind 20 scenario_memory a b npos) = Ret 3.
Proof. reflexivity. Qed.

Example at_10_of_hello :
  at_ example_memory hello 10 = Throw (out_of_range "Out of range.").
Proof. reflexivity. Qed.

Example find_first_not_of_space :
  on_literals 1400 1500 (fun a b => find_first_not_of 20 scenario_memory a b 0)
  = Ret 2.
Proof. reflexivity. Qed.

(** The sentence of the specification on the out-of-range condition fails
    twice: [copy] is not among the operations it names and throws for a
    start position beyond the length, and [at] throws for [pos == size],
    which does not exceed the length. *)
Lemma out_of_range_outside_the_stated_cases :
  (throws (run 0 example_memory hello (call_copy 300 1 6)) = true /\
   raises_as_specified hello (call_copy (CharT := ascii) 300 1 6) = false) /\
  (throws (run 0 example_memory hello (call_at 5)) = true /\
   raises_as_specified hello (call_at (CharT := ascii) 5) = false).
Proof. repeat split. Qed.

(** * Further properties of the members *)

Section Members.

Context {CharT : Type} {Traits : char_traits CharT}.

Implicit Types (m : memory CharT) (this v : basic_string_view) (xs ys : list CharT).

(** ** Element access *)

Lemma views_load m this xs i :
  views m this xs -> 0 <= i < m_size this ->
  exists c, nth_error xs (Z.to_nat i) = Some c /\ load m (m_data this + i) = Ret c.
Proof.
  intros [Hs H] Hi. unfold load_range in H.
  apply load_list_nth in H as [L N].
  destruct (N (Z.to_nat i)) as [E Ne]; [lia|].
  rewrite Z2Nat.id in E, Ne by lia.
  unfold load. destruct (m (m_data this + i)) as [c|]; [|contradiction].
  exists c. split; [now symmetry|reflexivity].
Qed.

Lemma front_back_load m this xs :
  views m this xs -> 0 < m_size this ->
  exists c d,
    load m (m_data this + 0) = Ret c /\ nth_error xs 0 = Some c /\
    load m (m_data this + wrap (m_size this - 1)) = Ret d /\
    nth_error xs (Datatypes.length xs - 1) = Some d.
Proof.
  intros Hv Hs. assert (Is : is_size_type (m_size this)) by apply Hv.
  pose proof (views_zlen _ _ _ Hv) as L.
  destruct (views_load m this xs 0 Hv) as (c & Hc & Hlc); [lia|].
  destruct (views_load m this xs (m_size this - 1) Hv) as (d & Hd & Hld); [lia|].
  exists c, d. rewrite wrap_small by (size_type; lia).
  repeat split; auto.
  replace (Datatypes.length xs - 1)%nat with (Z.to_nat (m_size this - 1))
    by (unfold zlen in L; lia).
  exact Hd.
Qed.

(** X1: on a view of [xs], [at(pos)] returns the character of index [pos]
    when [pos < size], as [operator[]] does, and throws [std::out_of_range]
    when [pos >= size], the position one past the last character included. *)
Theorem at_is_bounds_checked m this xs pos :
  views m this xs -> is_size_type pos ->
  (pos < m_size this ->
   exists c, nth_error xs (Z.to_nat pos) = Some c /\
     at_ m this pos = Ret c /\ index m this pos = Ret c) /\
  (m_size this <= pos -> at_ m this pos = Throw (out_of_range "Out of range.")).
Proof.
  intros Hv Hp. unfold at_, index. split; intros H.
  - destruct (views_load m this xs pos Hv) as (c & Hc & Hl);
      [unfold is_size_type in Hp; lia|].
    exists c. destruct (Z.ltb_spec pos (m_size this)); [auto|lia].
  - destruct (Z.ltb_spec pos (m_size this)); [lia|reflexivity].
Qed.

(** X2: on a non-empty view of [xs], [front()] is the first character of
    [xs] and [back()] the last. *)
Theorem front_and_back_of_nonempty m this xs :
  views m this xs -> 0 < m_size this ->
  exists c d,
    front m this = Ret c /\ nth_error xs 0 = Some c /\
    back m this = Ret d /\ nth_error xs (Datatypes.length xs - 1) = Some d.
Proof.
  intros Hv Hs. assert (Is : is_size_type (m_size this)) by apply Hv.
  pose proof (views_zlen _ _ _ Hv) as L.
  destruct (views_load m this xs 0 Hv) as (c & Hc & Hlc); [lia|].
  destruct (views_load m this xs (m_size this - 1) Hv) as (d & Hd & Hld); [lia|].
  exists c, d. unfold front, back.
  rewrite wrap_small by (size_type; lia).
  repeat split; auto.
  replace (Datatypes.length xs - 1)%nat with (Z.to_nat (m_size this - 1))
    by (unfold zlen in L; lia).
  exact Hd.
Qed.

(** ** remove_prefix, remove_suffix *)

Lemma slice_skipn xs n :
  0 <= n <= zlen xs -> slice xs n (zlen xs - n) = skipn (Z.to_nat n) xs.
Proof.
  intros Hn. unfold slice. apply firstn_all2. rewrite length_skipn.
  unfold zlen in *. lia.
Qed.

(** X3: for [n <= size], [remove_prefix(n)] leaves a view of the characters
    after the first [n] and [remove_suffix(n)] a view of the characters
    before the last [n]; neither checks [n], and for [n > size] the new
    size is [size - n] wrapped around. *)
Theorem remove_prefix_and_suffix m this xs n :
  views m this xs -> is_size_type n ->
  (n <= m_size this ->
   views m (remove_prefix this n) (skipn (Z.to_nat n) xs) /\
   views m (remove_suffix this n) (firstn (Z.to_nat (m_size this - n)) xs)) /\
  (m_size this < n ->
   m_size (remove_prefix this n) = m_size this - n + size_type_modulus /\
   m_size (remove_suffix this n) = m_size this - n + size_type_modulus).
Proof.
  intros Hv Hn. assert (Is : is_size_type (m_size this)) by apply Hv.
  pose proof (views_zlen _ _ _ Hv) as L. unfold remove_prefix, remove_suffix.
  split; intros H.
  - rewrite wrap_small by (size_type; lia). split.
    + rewrite <- slice_skipn by (size_type; lia). rewrite L.
      apply views_slice; auto; size_type; lia.
    + pose proof (views_slice m this xs 0 (m_size this - n) Hv) as S.
      rewrite Z.add_0_r in S. apply S; size_type; lia.
  - cbn [m_size]. unfold wrap.
    replace (m_size this - n) with (m_size this - n + size_type_modulus
                                    + (-1) * size_type_modulus) by lia.
    rewrite Z.mod_add by (rewrite size_type_modulus_eq; lia).
    rewrite Z.mod_small by (size_type; lia). split; lia.
Qed.

(** X4: for [n <= size], the view [remove_prefix(n)] leaves compares equal
    to [substr(n)], and the view [remove_suffix(n)] leaves compares equal to
    [substr(0, size - n)]: [compare] returns 0. *)
Theorem remove_prefix_and_suffix_agree_with_substr m this xs n :
  views m this xs -> is_size_type n -> n <= m_size this ->
  exists s t,
    substr this n npos = Ret s /\
    compare m (remove_prefix this n) s = Ret 0 /\
    substr this 0 (m_size this - n) = Ret t /\
    compare m (remove_suffix this n) t = Ret 0.
Proof.
  intros Hv Hn Hle. assert (Is : is_size_type (m_size this)) by apply Hv.
  destruct (substr_views m this xs n npos) as (s & Hs & Vs); auto;
    try (size_type; lia).
  destruct (substr_views m this xs 0 (m_size this - n)) as (t & Ht & Vt); auto;
    try (size_type; lia).
  exists s, t. split; [exact Hs|]. split; [|split; [exact Ht|]].
  - replace (Z.min npos (m_size this - n)) with (m_size this - n) in Vs
      by (size_type; lia).
    apply (compare_equal_views m _ s (slice xs n (m_size this - n))
             (slice xs n (m_size this - n))); auto.
    + unfold remove_prefix. rewrite wrap_small by (size_type; lia).
      apply views_slice; auto; size_type; lia.
    + apply seq_eqb_refl.
  - replace (Z.min (m_size this - n) (m_size this - 0)) with (m_size this - n) in Vt
      by (size_type; lia).
    apply (compare_equal_views m _ t (slice xs 0 (m_size this - n))
             (slice xs 0 (m_size this - n))); auto.
    + unfold remove_suffix. rewrite wrap_small by (size_type; lia).
      pose proof (views_slice m this xs 0 (m_size this - n) Hv) as S.
      rewrite Z.add_0_r in S. apply S; size_type; lia.
    + apply seq_eqb_refl.
Qed.

(** ** substr of substr *)

(** X5: slicing a slice is slicing once: for [pos1 <= size] and [pos2] not
    beyond the length [r1 = min(count1, size - pos1)] of the first slice,
    [substr(pos1, count1).substr(pos2, count2)] is the very view
    [substr(pos1 + pos2, min(count2, r1 - pos2))]; for [pos2 > r1] the second
    [substr] throws. *)
Theorem substr_of_substr this pos1 count1 pos2 count2 :
  is_size_type (m_size this) ->
  is_size_type pos1 -> is_size_type count1 ->
  is_size_type pos2 -> is_size_type count2 ->
  pos1 <= m_size this ->
  let r1 := Z.min count1 (m_size this - pos1) in
  exists a, substr this pos1 count1 = Ret a /\
    (pos2 <= r1 ->
     exists b, substr a pos2 count2 = Ret b /\
       substr this (pos1 + pos2) (Z.min count2 (r1 - pos2)) = Ret b) /\
    (r1 < pos2 -> substr a pos2 count2 = Throw (out_of_range "Out of range")).
Proof.
  intros Is Ip1 Ic1 Ip2 Ic2 Hle r1.
  rewrite (substr_Ret this pos1 count1) by auto. fold r1. cbv zeta.
  eexists. split; [reflexivity|].
  assert (Hr1 : 0 <= r1 <= m_size this - pos1) by (unfold r1; size_type; lia).
  destruct (Z.leb_spec r1 0) as [Z1|Z1].
  - assert (r1 = 0) by lia. split.
    + intros Hp2. assert (pos2 = 0) by (size_type; lia). subst pos2.
      eexists. split; [reflexivity|].
      rewrite substr_Ret by (auto; size_type; lia). cbv zeta.
      replace (Z.min (Z.min count2 (r1 - 0)) (m_size this - (pos1 + 0))) with 0
        by (size_type; lia).
      cbn. unfold basic_string_view_default, wrap. cbn.
      destruct (Z.min count2 0 <=? 0) eqn:E; [reflexivity|].
      apply Z.leb_gt in E. lia.
    + intros Hp2. unfold substr. cbn [basic_string_view_default m_size].
      destruct (Z.ltb_spec 0 pos2); [reflexivity|lia].
  - unfold basic_string_view_count. split.
    + intros Hp2. rewrite (substr_Ret (mk_view _ _)); cbn [m_size m_data];
        auto; [|size_type; lia].
      eexists. split; [reflexivity|].
      rewrite substr_Ret by (auto; size_type; lia). cbv zeta. f_equal.
      replace (Z.min (Z.min count2 (r1 - pos2)) (m_size this - (pos1 + pos2)))
        with (Z.min count2 (r1 - pos2)) by lia.
      destruct (Z.min count2 (r1 - pos2) <=? 0); [reflexivity|].
      unfold basic_string_view_count. f_equal. lia.
    + intros Hp2. unfold substr. cbn [m_size].
      destruct (Z.ltb_spec r1 pos2); [reflexivity|lia].
Qed.

(** ** The order compare defines *)

Lemma lex_cmp_prefix xs ys :
  lex_cmp xs ys =
  (let k := Nat.min (Datatypes.length xs) (Datatypes.length ys) in
   let s := lex_sign Traits_eq Traits_lt (firstn k xs) (firstn k ys) in
   if s =? 0 then
     if (Datatypes.length xs =? Datatypes.length ys)%nat then 0
     else if (Datatypes.length xs <? Datatypes.length ys)%nat then -1 else 1
   else s).
Proof.
  revert ys. induction xs as [|x xs IH]; intros [|y ys]; try reflexivity.
  cbn [lex_cmp Datatypes.length Nat.min firstn lex_sign].
  destruct (Traits_eq x y).
  - rewrite IH. reflexivity.
  - destruct (Traits_lt x y); reflexivity.
Qed.

Lemma compare_value_sgn xs ys : Z.sgn (compare_value xs ys) = lex_cmp xs ys.
Proof.
  rewrite lex_cmp_prefix. unfold compare_value. cbv zeta.
  pose proof (Traits_compare_sgn _ _ (common_prefix_length xs ys)) as E.
  assert (K : forall l : list CharT,
             slice l 0 (Z.min (zlen xs) (zlen ys)) =
             firstn (Nat.min (Datatypes.length xs) (Datatypes.length ys)) l).
  { intros l. unfold slice, zlen. cbn [Z.to_nat skipn]. f_equal. lia. }
  rewrite !K in *.
  set (c := Traits_compare_seq _ _) in *.
  set (s := lex_sign _ _ _ _) in *.
  destruct (Z.eqb_spec c 0) as [Hc|Hc]; cbn [negb].
  - rewrite Hc in E. cbn in E. rewrite <- E. cbn [Z.eqb].
    unfold zlen.
    destruct (Z.eqb_spec (Z.of_nat (Datatypes.length xs)) (Z.of_nat (Datatypes.length ys))),
      (Nat.eqb_spec (Datatypes.length xs) (Datatypes.length ys)); try lia;
      try reflexivity.
    destruct (Z.ltb_spec (Z.of_nat (Datatypes.length xs)) (Z.of_nat (Datatypes.length ys))),
      (Nat.ltb_spec (Datatypes.length xs) (Datatypes.length ys)); try lia;
      reflexivity.
  - destruct (Z.eqb_spec s 0) as [Hs|Hs]; [|exact E].
    rewrite Hs in E. apply -> Z.sgn_null_iff in E. contradiction.
Qed.

(** X6: [compare] orders views as the lexicographic order orders their
    characters, a proper prefix first: the sign of [a.compare(b)] is the
    sign of that order on the characters of [a] and [b]. *)
Theorem compare_orders_lexicographically m a b xs ys :
  views m a xs -> views m b ys ->
  exists c, compare m a b = Ret c /\ Z.sgn c = lex_cmp xs ys.
Proof.
  intros Ha Hb. exists (compare_value xs ys).
  split; [now apply compare_views|apply compare_value_sgn].
Qed.

(** C2: on views of [xs] and [ys], [compare] is the lexicographic order
    with the length as tie-break: [a.compare(b)] has the sign of that order,
    [a.compare(b)] and [b.compare(a)] have opposite signs, [a.compare(b)] is
    0 exactly when the views have the same length and the same characters,
    and when the first [min(a.size(), b.size())] characters compare equal
    the shorter view compares less.  [a == b] does not tell: to pass [b] on
    to [compare], [operator==] copies it with the constructor template that
    has no definition. *)
Theorem compare_is_lexicographic_and_operator_eq_is_undefined m a b xs ys :
  views m a xs -> views m b ys ->
  (exists ab ba,
     compare m a b = Ret ab /\ compare m b a = Ret ba /\
     Z.sgn ab = lex_cmp xs ys /\
     Z.sgn ab = - Z.sgn ba /\
     (ab = 0 <-> m_size a = m_size b /\ seq_eqb xs ys = true) /\
     (let rlen := Z.min (m_size a) (m_size b) in
      Traits_compare m (m_data a) (m_data b) rlen = Ret 0 ->
      (m_size a < m_size b -> ab < 0 /\ 0 < ba) /\
      (m_size b < m_size a -> 0 < ab /\ ba < 0))) /\
  operator_eq m a b = Undefined /\
  operator_eq m b a = Undefined.
Proof.
  intros Ha Hb.
  destruct (compare_on_views m a b xs ys Ha Hb) as (C1 & C2 & C3 & C4 & C5).
  split; [|split; reflexivity].
  exists (compare_value xs ys), (compare_value ys xs).
  split; [exact C1|]. split; [exact C2|].
  split; [apply compare_value_sgn|]. split; [exact C3|].
  split; [exact C4|exact C5].
Qed.

(** X7: the [compare] overload that slices both operands compares the
    slices: for [pos1 <= size] and [pos2 <= v.size],
    [compare(pos1, count1, v, pos2, count2)] has the sign of the
    lexicographic order on the two slices. *)
Theorem ranged_compare_compares_slices m a b xs ys pos1 count1 pos2 count2 :
  views m a xs -> views m b ys ->
  is_size_type pos1 -> is_size_type count1 ->
  is_size_type pos2 -> is_size_type count2 ->
  pos1 <= m_size a -> pos2 <= m_size b ->
  let s1 := slice xs pos1 (Z.min count1 (m_size a - pos1)) in
  let s2 := slice ys pos2 (Z.min count2 (m_size b - pos2)) in
  exists c, compare_sub_sub m a pos1 count1 b pos2 count2 = Ret c /\
            Z.sgn c = lex_cmp s1 s2.
Proof.
  intros Ha Hb Ip1 Ic1 Ip2 Ic2 H1 H2 s1 s2.
  destruct (substr_views m a xs pos1 count1) as (r1 & Hr1 & V1); auto;
    [unfold is_size_type in *; lia|].
  destruct (substr_views m b ys pos2 count2) as (r2 & Hr2 & V2); auto;
    [unfold is_size_type in *; lia|].
  unfold compare_sub_sub. rewrite Hr1, Hr2. cbn [bind].
  exists (compare_value s1 s2).
  split; [now apply compare_views|apply compare_value_sgn].
Qed.

(** ** compare as an equivalence and as an order

    [Traits] only has to make [eq] reflexive and symmetric and [lt] decide
    between two characters that are not [eq].  When [eq] is transitive,
    comparing equal is an equivalence; when moreover [lt] is transitive and
    respects [eq], comparing less is a strict order. *)

Section Transitive.

Hypothesis Traits_eq_trans :
  forall c d e, Traits_eq c d = true -> Traits_eq d e = true -> Traits_eq c e = true.

Lemma seq_eqb_sym xs ys : seq_eqb xs ys = seq_eqb ys xs.
Proof.
  revert ys. induction xs as [|x xs IH]; intros [|y ys]; simpl; auto.
  now rewrite (Traits_eq_sym x y), IH.
Qed.

Lemma seq_eqb_trans xs ys zs :
  seq_eqb xs ys = true -> seq_eqb ys zs = true -> seq_eqb xs zs = true.
Proof.
  revert ys zs. induction xs as [|x xs IH]; intros [|y ys] [|z zs]; simpl;
    try discriminate; auto.
  intros H1 H2. apply andb_true_iff in H1 as [E1 H1].
  apply andb_true_iff in H2 as [E2 H2]. apply andb_true_iff. split.
  - eapply Traits_eq_trans; eauto.
  - eapply IH; eauto.
Qed.

Lemma compare_zero_views m a b xs ys :
  views m a xs -> views m b ys ->
  (compare m a b = Ret 0 <-> seq_eqb xs ys = true).
Proof.
  intros Ha Hb. rewrite (compare_views m a b xs ys Ha Hb).
  rewrite <- compare_value_zero. split; [now intros [= ->]|now intros ->].
Qed.

(** X9: when [Traits::eq] is transitive, comparing equal ([compare]
    returns 0) is an equivalence on views that looks at the characters
    only: a view compares equal to itself and to any view of the same
    characters wherever they are stored, [a.compare(b)] is 0 exactly when
    [b.compare(a)] is, and [a.compare(b) == 0] and [b.compare(c) == 0] give
    [a.compare(c) == 0]. *)
Theorem compare_equal_is_an_equivalence m a b c xs ys zs :
  views m a xs -> views m b ys -> views m c zs ->
  compare m a a = Ret 0 /\
  (forall a', views m a' xs -> compare m a a' = Ret 0) /\
  (compare m a b = Ret 0 <-> compare m b a = Ret 0) /\
  (compare m a b = Ret 0 -> compare m b c = Ret 0 -> compare m a c = Ret 0).
Proof.
  intros Ha Hb Hc. split; [|split; [|split]].
  - apply (compare_equal_views m a a xs xs Ha Ha), seq_eqb_refl.
  - intros a' Ha'. apply (compare_equal_views m a a' xs xs Ha Ha'), seq_eqb_refl.
  - rewrite (compare_zero_views m a b xs ys Ha Hb),
      (compare_zero_views m b a ys xs Hb Ha), (seq_eqb_sym ys xs). tauto.
  - rewrite (compare_zero_views m a b xs ys Ha Hb),
      (compare_zero_views m b c ys zs Hb Hc),
      (compare_zero_views m a c xs zs Ha Hc).
    apply seq_eqb_trans.
Qed.

Hypothesis Traits_lt_trans :
  forall c d e, Traits_lt c d = true -> Traits_lt d e = true -> Traits_lt c e = true.

Hypothesis Traits_lt_eq_l :
  forall c d e, Traits_eq c d = true -> Traits_lt d e = true -> Traits_lt c e = true.

Hypothesis Traits_lt_eq_r :
  forall c d e, Traits_lt c d = true -> Traits_eq d e = true -> Traits_lt c e = true.

Lemma lex_cmp_lt_trans xs ys zs :
  lex_cmp xs ys = -1 -> lex_cmp ys zs = -1 -> lex_cmp xs zs = -1.
Proof.
  revert ys zs. induction xs as [|x xs IH]; intros [|y ys] [|z zs]; simpl;
    try discriminate; auto.
  destruct (Traits_eq x y) eqn:Exy; destruct (Traits_eq y z) eqn:Eyz.
  - rewrite (Traits_eq_trans x y z Exy Eyz). apply IH.
  - destruct (Traits_lt y z) eqn:Lyz; [|discriminate]. intros _ _.
    destruct (Traits_eq x z) eqn:Exz.
    + rewrite Traits_eq_sym in Exy.
      rewrite (Traits_eq_trans y x z Exy Exz) in Eyz. discriminate.
    + now rewrite (Traits_lt_eq_l x y z Exy Lyz).
  - destruct (Traits_lt x y) eqn:Lxy; [|discriminate]. intros _ _.
    destruct (Traits_eq x z) eqn:Exz.
    + rewrite Traits_eq_sym in Eyz.
      rewrite (Traits_eq_trans x z y Exz Eyz) in Exy. discriminate.
    + now rewrite (Traits_lt_eq_r x y z Lxy Eyz).
  - destruct (Traits_lt x y) eqn:Lxy; [|discriminate].
    destruct (Traits_lt y z) eqn:Lyz; [|discriminate]. intros _ _.
    destruct (Traits_eq x z) eqn:Exz.
    + rewrite Traits_eq_sym in Exz.
      pose proof (Traits_lt_eq_l z x y Exz Lxy) as Lzy.
      rewrite (Traits_lt_total y z Eyz), Lyz in Lzy. discriminate.
    + now rewrite (Traits_lt_trans x y z Lxy Lyz).
Qed.

(** X10: comparing less ([compare] returns a negative value) is a strict
    order on views when [Traits::eq] is transitive and [Traits::lt] is
    transitive and respects [eq]: no view compares less than itself, and
    [a.compare(b) < 0] and [b.compare(c) < 0] give [a.compare(c) < 0]. *)
Theorem compare_less_is_a_strict_order m a b c xs ys zs :
  views m a xs -> views m b ys -> views m c zs ->
  compare m a a = Ret 0 /\
  (forall ab bc,
     compare m a b = Ret ab -> ab < 0 ->
     compare m b c = Ret bc -> bc < 0 ->
     exists ac, compare m a c = Ret ac /\ ac < 0).
Proof.
  intros Ha Hb Hc. split.
  - apply (compare_equal_views m a a xs xs Ha Ha), seq_eqb_refl.
  - intros ab bc Hab Nab Hbc Nbc.
    rewrite (compare_views m a b xs ys Ha Hb) in Hab. injection Hab as <-.
    rewrite (compare_views m b c ys zs Hb Hc) in Hbc. injection Hbc as <-.
    exists (compare_value xs zs). split; [now apply compare_views|].
    apply Z.sgn_neg_iff. rewrite compare_value_sgn.
    apply (lex_cmp_lt_trans xs ys zs).
    + rewrite <- compare_value_sgn. now apply Z.sgn_neg_iff.
    + rewrite <- compare_value_sgn. now apply Z.sgn_neg_iff.
Qed.

End Transitive.

(** ** The single-character tests *)

(** X12: [starts_with(c)] and [ends_with(c)] test the first and the last
    character under [Traits::eq], and are false on an empty view, which
    they do not read. *)
Theorem single_character_prefix_and_suffix m this xs c :
  views m this xs ->
  starts_with_char m this c =
    Ret (match nth_error xs 0 with
         | Some x => Traits_eq x c
         | None => false
         end) /\
  ends_with_char m this c =
    Ret (match nth_error xs (Datatypes.length xs - 1) with
         | Some x => Traits_eq x c
         | None => false
         end).
Proof.
  intros Hv. assert (Is : is_size_type (m_size this)) by apply Hv.
  pose proof (views_zlen _ _ _ Hv) as L.
  unfold starts_with_char, ends_with_char, empty, front, back.
  destruct (Z.eqb_spec (m_size this) 0) as [E|E]; cbn [negb].
  - destruct xs; [split; reflexivity|].
    rewrite zlen_cons in L. pose proof (zlen_nonneg xs). lia.
  - destruct (front_back_load m this xs Hv) as (x & y & Hx & Nx & Hy & Ny);
      [size_type; lia|].
    rewrite Hx, Hy, Nx, Ny. split; reflexivity.
Qed.

(** ** How the searches compose with the other members *)

(** What [find] returns on views. *)
Lemma find_views fuel m h v H V pos :
  addressable m -> views m h H -> views m v V -> is_size_type pos ->
  m_size h + 1 < Z.of_nat fuel ->
  exists r, find fuel m h v pos = Ret r /\ first_from H V pos r.
Proof.
  intros Hm Hh Hv Hp Hf.
  assert (Ih : is_size_type (m_size h)) by apply Hh.
  assert (Iv : is_size_type (m_size v)) by apply Hv.
  pose proof (views_lt_npos m h H Hm Hh) as Hn.
  pose proof (views_zlen _ _ _ Hh) as Lh. pose proof (views_zlen _ _ _ Hv) as Lv.
  assert (Out : pos > m_size h \/ m_size v > m_size h - pos ->
                first_from H V pos npos).
  { intros C. left. split; auto. intros i Hi (_ & O & _).
    unfold is_size_type in *. lia. }
  unfold find, empty.
  destruct ((m_size h =? 0) && (m_size v =? 0) && (pos =? 0)) eqn:Z0.
  - apply andb_true_iff in Z0 as [Z0 Z3]. apply andb_true_iff in Z0 as [Z1 Z2].
    apply Z.eqb_eq in Z1, Z2, Z3.
    exists 0. split; [reflexivity|]. right.
    split; [lia|]. split; [|intros; lia].
    apply (occurs_at_iff m h v); auto; try lia.
    rewrite Z2. destruct V; [reflexivity|]. rewrite zlen_cons in Lv.
    pose proof (zlen_nonneg V). lia.
  - destruct (Z.gtb_spec pos (m_size h)) as [G1|G1]; cbn [orb].
    + exists npos. split; [reflexivity|]. apply Out. lia.
    + rewrite wrap_small by (size_type; lia).
      destruct (Z.gtb_spec (m_size v) (m_size h - pos)) as [G2|G2].
      * exists npos. split; [reflexivity|]. apply Out. lia.
      * apply (find_loop_spec m h v H V Hh Hv Hn); size_type; lia.
Qed.

(** What [rfind] returns on views of a needle that fits. *)
Lemma rfind_views fuel m h v H V pos :
  views m h H -> views m v V -> is_size_type pos ->
  0 < m_size v <= m_size h -> m_size h + 1 < Z.of_nat fuel ->
  exists r, rfind fuel m h v pos = Ret r /\
    last_upto H V (Z.min pos (m_size h - m_size v)) r.
Proof.
  intros Hh Hv Hp Hs Hf.
  assert (Ih : is_size_type (m_size h)) by apply Hh.
  unfold rfind, empty.
  destruct (Z.eqb_spec (m_size v) 0); [lia|].
  destruct (Z.gtb_spec (m_size v) (m_size h)); [lia|].
  rewrite wrap_small by (size_type; lia).
  apply (rfind_loop_spec m h v H V Hh Hv); size_type; lia.
Qed.

(** X14: slicing the haystack where [find] found the needle gives the
    needle back: when [find(v, pos)] returns an index [r] other than
    [npos], [substr(r, v.size())] does not throw and compares equal to
    [v]: [compare] returns 0. *)
Theorem substr_at_found_index_is_the_needle fuel m h v H V pos r :
  addressable m -> views m h H -> views m v V -> is_size_type pos ->
  m_size h + 1 < Z.of_nat fuel ->
  find fuel m h v pos = Ret r -> r <> npos ->
  exists s, substr h r (m_size v) = Ret s /\ compare m s v = Ret 0.
Proof.
  intros Hm Hh Hv Hp Hf Hr Nr.
  assert (Ih : is_size_type (m_size h)) by apply Hh.
  assert (Iv : is_size_type (m_size v)) by apply Hv.
  pose proof (views_zlen _ _ _ Hh) as Lh. pose proof (views_zlen _ _ _ Hv) as Lv.
  destruct (find_views fuel m h v H V pos Hm Hh Hv Hp Hf) as (r' & Hr' & Sr).
  rewrite Hr in Hr'. injection Hr' as <-.
  destruct Sr as [[-> _]|(Sr1 & (O1 & O2 & O3) & _)]; [contradiction|].
  destruct (substr_views m h H r (m_size v)) as (s & Hs & Vs); auto;
    try (size_type; lia).
  exists s. split; [exact Hs|].
  replace (Z.min (m_size v) (m_size h - r)) with (m_size v) in Vs by lia.
  apply (compare_equal_views m s v _ V Vs Hv).
  rewrite <- Lv. exact O3.
Qed.

(** X15: searching the whole haystack, [find] and [rfind] agree on whether
    the needle occurs, and the first occurrence is not after the last:
    [find(v)] is [npos] exactly when [rfind(v)] is, and otherwise
    [find(v) <= rfind(v)]. *)
Theorem find_is_not_after_rfind fuel m h v H V :
  addressable m -> views m h H -> views m v V ->
  m_size h + 1 < Z.of_nat fuel ->
  exists f r,
    find fuel m h v 0 = Ret f /\ rfind fuel m h v npos = Ret r /\
    (f = npos <-> r = npos) /\ (f <> npos -> f <= r).
Proof.
  intros Hm Hh Hv Hf.
  assert (Ih : is_size_type (m_size h)) by apply Hh.
  assert (Iv : is_size_type (m_size v)) by apply Hv.
  pose proof (views_lt_npos m h H Hm Hh) as Hn.
  pose proof (views_zlen _ _ _ Hh) as Lh. pose proof (views_zlen _ _ _ Hv) as Lv.
  destruct (find_views fuel m h v H V 0 Hm Hh Hv) as (f & Hfd & Sf);
    [size_type; lia|auto|].
  exists f. rewrite Hfd.
  destruct (Z.eq_dec (m_size v) 0) as [E0|E0].
  { (* an empty needle is found at 0 and at the end *)
    unfold rfind, empty. rewrite E0. cbn [Z.eqb].
    exists (Z.min npos (m_size h)). split; [reflexivity|]. split; [reflexivity|].
    assert (O : occurs_at H V 0).
    { apply (occurs_at_iff m h v); auto; try (size_type; lia).
      rewrite E0. destruct V; [reflexivity|]. rewrite zlen_cons in Lv.
      pose proof (zlen_nonneg V). lia. }
    assert (F0 : f = 0).
    { destruct Sf as [[-> N]|(S1 & S2 & S3)].
      - exfalso. apply (N 0); auto. lia.
      - destruct (Z.eq_dec f 0); auto. exfalso. apply (S3 0); auto.
        destruct S2 as (? & _). lia. }
    subst f. size_type. split; [split; lia|lia]. }
  destruct (Z.gtb_spec (m_size v) (m_size h)) as [G|G].
  { (* the needle does not fit *)
    unfold rfind, empty.
    destruct (Z.eqb_spec (m_size v) 0); [lia|].
    destruct (Z.gtb_spec (m_size v) (m_size h)); [|lia].
    exists npos. split; [reflexivity|]. split; [reflexivity|].
    assert (F : f = npos).
    { destruct Sf as [[-> _]|(_ & (O0 & O & _) & _)]; [reflexivity|lia]. }
    split; [tauto|]. intros A. contradiction. }
  destruct (rfind_views fuel m h v H V npos Hh Hv) as (r & Hr & Sr);
    try (size_type; lia).
  exists r. split; [reflexivity|]. split; [exact Hr|].
  replace (Z.min npos (m_size h - m_size v)) with (m_size h - m_size v) in Sr
    by (size_type; lia).
  destruct Sf as [[-> Nf]|(F1 & F2 & F3)];
    destruct Sr as [[-> Nr]|(R1 & R2 & R3)].
  - split; [tauto|]. intros A. contradiction.
  - exfalso. apply (Nf r); auto. destruct R2 as (? & _). lia.
  - exfalso. apply (Nr f); auto. destruct F2 as (_ & ? & _). lia.
  - assert (f < npos /\ r < npos) as [? ?] by (size_type; destruct F2 as (_ & ? & _); lia).
    split; [split; lia|]. intros _.
    destruct (Z.le_gt_cases f r); auto. exfalso. apply (R3 f); auto.
    destruct F2 as (_ & ? & _). lia.
Qed.

(** ** Searching for a character of a set *)

Lemma find_index_spec c xs :
  forall k,
    match find_index c xs k with
    | Some i => k <= i < k + zlen xs /\ in_set xs c = true
    | None => in_set xs c = false
    end.
Proof.
  induction xs as [|x xs IH]; intros k; cbn [find_index in_set existsb];
    [reflexivity|].
  rewrite zlen_cons. pose proof (zlen_nonneg xs).
  destruct (Traits_eq x c); cbn [orb]; [split; [lia|reflexivity]|].
  specialize (IH (k + 1)). fold (in_set xs c).
  destruct (find_index c xs (k + 1)); [|exact IH].
  destruct IH as [IH1 IH2]. split; [lia|exact IH2].
Qed.

(** [Traits::find] returns a pointer other than [nullptr] exactly for a
    character of the set. *)
Lemma Traits_find_views m s S c :
  addressable m -> views m s S ->
  exists p, Traits_find m (m_data s) (m_size s) c = Ret p /\
    negb (p =? nullptr) = in_set S c.
Proof.
  intros Hm Hs. pose proof (views_zlen _ _ _ Hs) as L. destruct Hs as [Is Hl].
  unfold Traits_find. rewrite Hl. cbn [bind]. eexists. split; [reflexivity|].
  pose proof (find_index_spec c S 0) as F.
  destruct (find_index c S 0) as [i|]; [|now rewrite F].
  destruct F as [Fi ->].
  unfold load_range in Hl. apply load_list_nth in Hl as [_ N].
  destruct (N (Z.to_nat i)) as [_ Ne]; [lia|]. rewrite Z2Nat.id in Ne by lia.
  destruct (m (m_data s + i)) as [x|] eqn:E; [|contradiction].
  apply Hm in E. unfold nullptr.
  destruct (Z.eqb_spec (m_data s + i) 0); [lia|reflexivity].
Qed.

Lemma hit_at m h H set wanted i c :
  views m h H -> 0 <= i -> nth_error H (Z.to_nat i) = Some c ->
  (hit wanted H set i <-> in_set set c = wanted).
Proof.
  intros Hh Hi Hc. unfold hit. split.
  - intros (_ & c' & Hc' & Hw). congruence.
  - intros Hw. split; [exact Hi|]. exists c. auto.
Qed.

Lemma hit_lt_size m h H set wanted i :
  views m h H -> hit wanted H set i -> 0 <= i < m_size h.
Proof.
  intros Hh (Hi & c & Hc & _). rewrite <- (views_zlen _ _ _ Hh).
  assert (Z.to_nat i < Datatypes.length H)%nat
    by (apply nth_error_Some; congruence).
  unfold zlen. lia.
Qed.

Lemma find_first_loop_views wanted m h s H S :
  addressable m -> views m h H -> views m s S ->
  forall fuel pos,
    0 <= pos < size_type_modulus ->
    Z.max 0 (m_size h - pos) < Z.of_nat fuel ->
    exists r, find_first_loop wanted fuel m h s pos = Ret r /\
      first_hit wanted H S pos r.
Proof.
  intros Hm Hh Hs.
  assert (Ih : is_size_type (m_size h)) by apply Hh.
  induction fuel as [|fuel IH]; intros pos Hp Hf; [lia|].
  cbn [find_first_loop].
  destruct (Z.ltb_spec pos (m_size h)) as [Hin|Hout].
  - destruct (views_load m h H pos Hh) as (c & Hc & Hl); [lia|].
    rewrite Hl. cbn [bind].
    destruct (Traits_find_views m s S c Hm Hs) as (p & Hfp & Ep).
    rewrite Hfp. cbn [bind]. rewrite Ep.
    pose proof (hit_at m h H S wanted pos c Hh) as A.
    destruct (Bool.eqb (in_set S c) wanted) eqn:E.
    + apply Bool.eqb_prop in E. exists pos. split; [reflexivity|]. right.
      split; [lia|]. split; [apply A; auto; lia|intros; lia].
    + apply Bool.eqb_false_iff in E.
      rewrite wrap_small by (size_type; lia).
      destruct (IH (pos + 1)) as (r & Hr & Sr); try (size_type; lia).
      exists r. split; [exact Hr|].
      assert (N : ~ hit wanted H S pos) by (rewrite A; auto; lia).
      destruct Sr as [[-> Sr]|(Sr1 & Sr2 & Sr3)].
      * left. split; auto. intros i Hi.
        destruct (Z.eq_dec i pos) as [->|]; auto. apply Sr. lia.
      * right. split; [lia|]. split; auto. intros i Hi.
        destruct (Z.eq_dec i pos) as [->|]; auto. apply Sr3. lia.
  - exists npos. split; [reflexivity|]. left. split; auto.
    intros i Hi Hit. apply (hit_lt_size m h H) in Hit; auto. lia.
Qed.

Lemma find_last_loop_exit wanted fuel m h s :
  find_last_loop wanted (Datatypes.S fuel) m h s npos = Ret npos.
Proof. reflexivity. Qed.

Lemma find_last_loop_views wanted m h s H S :
  addressable m -> views m h H -> views m s S ->
  forall fuel pos,
    0 <= pos < m_size h ->
    pos + 1 < Z.of_nat fuel ->
    exists r, find_last_loop wanted fuel m h s pos = Ret r /\
      last_hit wanted H S pos r.
Proof.
  intros Hm Hh Hs.
  assert (Ih : is_size_type (m_size h)) by apply Hh.
  induction fuel as [|fuel IH]; intros pos Hp Hf; [lia|].
  cbn [find_last_loop].
  destruct (Z.eqb_spec pos npos) as [E|_]; [size_type; lia|]. cbn [negb].
  destruct (views_load m h H pos Hh) as (c & Hc & Hl); [lia|].
  rewrite Hl. cbn [bind].
  destruct (Traits_find_views m s S c Hm Hs) as (p & Hfp & Ep).
  rewrite Hfp. cbn [bind]. rewrite Ep.
  pose proof (hit_at m h H S wanted pos c Hh) as A.
  destruct (Bool.eqb (in_set S c) wanted) eqn:E.
  - apply Bool.eqb_prop in E. exists pos. split; [reflexivity|]. right.
    split; [lia|]. split; [apply A; auto; lia|intros; lia].
  - apply Bool.eqb_false_iff in E.
    assert (N : ~ hit wanted H S pos) by (rewrite A; auto; lia).
    destruct (Z.eq_dec pos 0) as [->|Hp0].
    + destruct fuel as [|fuel]; [lia|].
      rewrite wrap_minus_one, find_last_loop_exit.
      exists npos. split; [reflexivity|]. left. split; auto.
      intros i Hi O. destruct (Z.eq_dec i 0) as [->|]; auto.
      destruct O as (O & _). lia.
    + rewrite wrap_small by (size_type; lia).
      destruct (IH (pos - 1)) as (r & Hr & Sr); try lia.
      exists r. split; [exact Hr|].
      destruct Sr as [[-> Sr]|(Sr1 & Sr2 & Sr3)].
      * left. split; auto. intros i Hi.
        destruct (Z.eq_dec i pos) as [->|]; auto. apply Sr. lia.
      * right. split; [lia|]. split; auto. intros i Hi.
        destruct (Z.eq_dec i pos) as [->|]; auto. apply Sr3. lia.
Qed.

(** The forward searches, with what they return spelled out. *)
Lemma find_first_views wanted fuel m h s H S pos :
  addressable m -> views m h H -> views m s S -> is_size_type pos ->
  m_size h + 1 < Z.of_nat fuel ->
  exists r, find_first_loop wanted fuel m h s pos = Ret r /\
    first_hit wanted H S pos r /\
    (r <> npos ->
     pos <= r < m_size h /\ hit wanted H S r /\
     forall i, pos <= i < r -> ~ hit wanted H S i) /\
    (r = npos <-> forall i, pos <= i -> ~ hit wanted H S i).
Proof.
  intros Hm Hh Hs Hp Hf.
  assert (Ih : is_size_type (m_size h)) by apply Hh.
  pose proof (views_lt_npos m h H Hm Hh) as Hn.
  destruct (find_first_loop_views wanted m h s H S Hm Hh Hs fuel pos)
    as (r & Hr & Sr); try (size_type; lia).
  exists r. split; [exact Hr|]. split; [exact Sr|].
  destruct Sr as [[-> N]|(S1 & S2 & S3)].
  - split; [intros A; contradiction|tauto].
  - pose proof (hit_lt_size m h H S wanted r Hh S2).
    split; [intros _; split; [lia|split; [exact S2|exact S3]]|].
    split; [size_type; lia|]. intros A. exfalso. apply (A r); auto.
Qed.

(** The backward searches, with what they return spelled out. *)
Lemma find_last_views wanted fuel m h s H S pos :
  addressable m -> views m h H -> views m s S -> is_size_type pos ->
  m_size h + 1 < Z.of_nat fuel ->
  exists r,
    (if empty h then Ret npos
     else find_last_loop wanted fuel m h s (Z.min pos (wrap (m_size h - 1))))
    = Ret r /\
    (r <> npos ->
     r <= pos /\ r < m_size h /\ hit wanted H S r /\
     forall i, r < i <= pos -> ~ hit wanted H S i) /\
    (r = npos <-> forall i, i <= pos -> ~ hit wanted H S i).
Proof.
  intros Hm Hh Hs Hp Hf.
  assert (Ih : is_size_type (m_size h)) by apply Hh.
  pose proof (views_lt_npos m h H Hm Hh) as Hn.
  unfold empty. destruct (Z.eqb_spec (m_size h) 0) as [E|E].
  - exists npos. split; [reflexivity|]. split; [intros A; contradiction|].
    split; auto. intros _ i Hi Hit.
    apply (hit_lt_size m h H) in Hit; auto. lia.
  - rewrite wrap_small by (size_type; lia).
    destruct (find_last_loop_views wanted m h s H S Hm Hh Hs fuel
                (Z.min pos (m_size h - 1))) as (r & Hr & Sr);
      try (size_type; lia).
    exists r. split; [exact Hr|].
    assert (B : forall i, hit wanted H S i -> i <= pos ->
                i <= Z.min pos (m_size h - 1)).
    { intros i Hit Hi. apply (hit_lt_size m h H) in Hit; auto. lia. }
    destruct Sr as [[-> N]|(S1 & S2 & S3)].
    + split; [intros A; contradiction|]. split; auto.
      intros _ i Hi Hit. apply (N i); auto.
    + pose proof (hit_lt_size m h H S wanted r Hh S2).
      split.
      * intros _. split; [lia|]. split; [lia|]. split; auto.
        intros i Hi Hit. apply (S3 i); auto. split; [lia|]. apply B; auto; lia.
      * split; [lia|]. intros A. exfalso. apply (A r); auto. lia.
Qed.

(** X16: [find_first_of(s, pos)] returns the first index at or after [pos]
    whose character is one of the characters of [s], and [npos] exactly
    when there is none; a returned index is less than [size]. *)
Theorem find_first_of_finds_the_first m h s H S fuel pos :
  addressable m -> views m h H -> views m s S -> is_size_type pos ->
  m_size h + 1 < Z.of_nat fuel ->
  exists r, find_first_of fuel m h s pos = Ret r /\
    (r <> npos ->
     pos <= r < m_size h /\ hit true H S r /\
     forall i, pos <= i < r -> ~ hit true H S i) /\
    (r = npos <-> forall i, pos <= i -> ~ hit true H S i).
Proof.
  intros Hm Hh Hs Hp Hf. unfold find_first_of.
  destruct (find_first_views true fuel m h s H S pos Hm Hh Hs Hp Hf)
    as (r & Hr & _ & A & B).
  exists r. auto.
Qed.

(** X17: [find_first_not_of(s, pos)] returns the first index at or after
    [pos] whose character is none of the characters of [s], and [npos]
    exactly when there is none. *)
Theorem find_first_not_of_finds_the_first m h s H S fuel pos :
  addressable m -> views m h H -> views m s S -> is_size_type pos ->
  m_size h + 1 < Z.of_nat fuel ->
  exists r, find_first_not_of fuel m h s pos = Ret r /\
    (r <> npos ->
     pos <= r < m_size h /\ hit false H S r /\
     forall i, pos <= i < r -> ~ hit false H S i) /\
    (r = npos <-> forall i, pos <= i -> ~ hit false H S i).
Proof.
  intros Hm Hh Hs Hp Hf. unfold find_first_not_of.
  destruct (find_first_views false fuel m h s H S pos Hm Hh Hs Hp Hf)
    as (r & Hr & _ & A & B).
  exists r. auto.
Qed.

(** X18: [find_last_of(s, pos)] returns the last index at or before [pos]
    whose character is one of the characters of [s], and [npos] exactly
    when there is none, as on an empty view. *)
Theorem find_last_of_finds_the_last m h s H S fuel pos :
  addressable m -> views m h H -> views m s S -> is_size_type pos ->
  m_size h + 1 < Z.of_nat fuel ->
  exists r, find_last_of fuel m h s pos = Ret r /\
    (r <> npos ->
     r <= pos /\ r < m_size h /\ hit true H S r /\
     forall i, r < i <= pos -> ~ hit true H S i) /\
    (r = npos <-> forall i, i <= pos -> ~ hit true H S i) /\
    (m_size h = 0 -> r = npos).
Proof.
  intros Hm Hh Hs Hp Hf. unfold find_last_of.
  destruct (find_last_views true fuel m h s H S pos Hm Hh Hs Hp Hf)
    as (r & Hr & A & B).
  exists r. split; [exact Hr|]. split; [exact A|]. split; [exact B|].
  intros E. unfold empty in Hr. rewrite E in Hr. cbn [Z.eqb] in Hr.
  injection Hr as <-. reflexivity.
Qed.

(** X19: [find_last_not_of(s, pos)] returns the last index at or before
    [pos] whose character is none of the characters of [s], and [npos]
    exactly when there is none, as on an empty view. *)
Theorem find_last_not_of_finds_the_last m h s H S fuel pos :
  addressable m -> views m h H -> views m s S -> is_size_type pos ->
  m_size h + 1 < Z.of_nat fuel ->
  exists r, find_last_not_of fuel m h s pos = Ret r /\
    (r <> npos ->
     r <= pos /\ r < m_size h /\ hit false H S r /\
     forall i, r < i <= pos -> ~ hit false H S i) /\
    (r = npos <-> forall i, i <= pos -> ~ hit false H S i) /\
    (m_size h = 0 -> r = npos).
Proof.
  intros Hm Hh Hs Hp Hf. unfold find_last_not_of.
  destruct (find_last_views false fuel m h s H S pos Hm Hh Hs Hp Hf)
    as (r & Hr & A & B).
  exists r. split; [exact Hr|]. split; [exact A|]. split; [exact B|].
  intros E. unfold empty in Hr. rewrite E in Hr. cbn [Z.eqb] in Hr.
  injection Hr as <-. reflexivity.
Qed.

(** ** The overloads on null-terminated buffers *)

(** X21: given a pointer [s] to the characters [ys] and their terminator,
    the overloads that take a [const CharT*] work on the characters before
    the terminator: [compare(s)] has the sign of the lexicographic order
    between the characters of the view and [ys], [find(s, pos)] returns the
    first index at or after [pos] where [ys] occurs, [find_first_of(s, pos)]
    the first index at or after [pos] that holds one of [ys] and
    [find_last_of(s, pos)] the last such index at or before [pos], each
    [npos] when there is none. *)
Theorem null_terminated_overloads fuel m this xs s ys pos :
  addressable m -> views m this xs -> c_string m s ys -> is_size_type pos ->
  (Datatypes.length ys < fuel)%nat -> m_size this + 1 < Z.of_nat fuel ->
  (exists c, compare_cstr fuel m this s = Ret c /\ Z.sgn c = lex_cmp xs ys) /\
  (exists r, find_cstr fuel m this s pos = Ret r /\ first_from xs ys pos r) /\
  (exists r, find_first_of_cstr fuel m this s pos = Ret r /\
             first_hit true xs ys pos r) /\
  (exists r, find_last_of_cstr fuel m this s pos = Ret r /\
     (r <> npos ->
      r <= pos /\ r < m_size this /\ hit true xs ys r /\
      forall i, r < i <= pos -> ~ hit true xs ys i) /\
     (r = npos <-> forall i, i <= pos -> ~ hit true xs ys i)).
Proof.
  intros Hm Hv Hc Hp Hf Hf'.
  pose proof (basic_string_view_cstr_Ret fuel m s ys Hm Hc Hf) as E.
  pose proof (c_string_views m s ys Hm Hc) as Hs.
  unfold compare_cstr, find_cstr, find_first_of_cstr, find_last_of_cstr,
    find_first_of, find_last_of.
  rewrite E. cbn [bind].
  split; [|split; [|split]].
  - exists (compare_value xs ys).
    split; [now apply compare_views|apply compare_value_sgn].
  - now apply find_views.
  - destruct (find_first_views true fuel m this (mk_view s (zlen ys)) xs ys pos)
      as (r & Hr & Sr & _); auto.
    exists r. auto.
  - now apply find_last_views.
Qed.

(** ** copy and substr *)

Lemma load_list_agree m m' a n :
  (forall x, a <= x < a + Z.of_nat n -> m x = m' x) ->
  load_list m a n = load_list m' a n.
Proof.
  revert a. induction n as [|n IH]; intros a H; simpl; auto.
  unfold load. rewrite <- (H a) by lia. destruct (m a); simpl; auto.
  rewrite (IH (a + 1)); auto. intros x Hx. apply H. lia.
Qed.

(** X22: for [pos <= size] and a destination array that does not overlap
    the characters copied, [copy(dest, count, pos)] returns
    [rcount = min(count, size - pos)], changes nothing outside
    [[dest, dest + rcount)], and leaves there characters that, viewed,
    compare equal to [substr(pos, count)]: [compare] returns 0. *)
Theorem copy_then_view_equals_substr m this xs dest count pos old :
  views m this xs -> is_size_type count -> is_size_type pos ->
  pos <= m_size this ->
  let rcount := Z.min count (m_size this - pos) in
  load_range m dest rcount = Ret old ->
  (dest + rcount <= m_data this + pos \/ m_data this + pos + rcount <= dest) ->
  exists m' s,
    copy m this dest count pos = Ret (m', rcount) /\
    substr this pos count = Ret s /\
    compare m' (basic_string_view_count dest rcount) s = Ret 0 /\
    (forall x, ~ (dest <= x < dest + rcount) -> m' x = m x).
Proof.
  intros Hv Hcount Hpos Hle rcount Hdest Hd.
  assert (Is : is_size_type (m_size this)) by apply Hv.
  assert (Hr : 0 <= rcount /\ pos + rcount <= m_size this)
    by (unfold rcount; size_type; lia).
  pose proof (views_range m this xs pos rcount Hv) as Hsrc.
  destruct (Traits_copy_Ret m dest (m_data this + pos) rcount
              (slice xs pos rcount) old) as (m' & Hcp & Hl & Hx); auto;
    try (size_type; lia).
  { apply Hsrc; size_type; lia. }
  exists m'. rewrite (substr_Ret this pos count) by auto. fold rcount. cbv zeta.
  eexists. split; [|split; [reflexivity|split; [|exact Hx]]].
  - unfold copy. destruct (Z.ltb_spec (m_size this) pos); [lia|].
    rewrite wrap_small by (size_type; lia). fold rcount. now rewrite Hcp.
  - assert (Vd : views m' (basic_string_view_count dest rcount)
                   (slice xs pos rcount)).
    { split; [cbn; size_type; lia|exact Hl]. }
    apply (compare_equal_views m' _ _ (slice xs pos rcount)
             (slice xs pos rcount) Vd); [|apply seq_eqb_refl].
    destruct (Z.leb_spec rcount 0).
    + replace rcount with 0 by lia. rewrite slice_nil. apply views_default.
    + split; [cbn; size_type; lia|]. cbn [m_data m_size basic_string_view_count].
      rewrite <- Hsrc by (size_type; lia). unfold load_range.
      apply load_list_agree. intros x Hx'. apply Hx. lia.
Qed.

End Members.

(** ** Concrete calls for the further properties *)

Lemma dots_views : views example_memory dots dots_chars.
Proof. split; [split; [discriminate|reflexivity]|reflexivity]. Qed.

Lemma char_eq_trans (c d e : ascii) :
  Traits_eq c d = true -> Traits_eq d e = true -> Traits_eq c e = true.
Proof.
  cbn. unfold char_eq. rewrite !Ascii.eqb_eq. congruence.
Qed.

Lemma char_lt_trans (c d e : ascii) :
  Traits_lt c d = true -> Traits_lt d e = true -> Traits_lt c e = true.
Proof.
  cbn. unfold char_lt. rewrite !N.ltb_lt. lia.
Qed.

Lemma char_lt_eq_l (c d e : ascii) :
  Traits_eq c d = true -> Traits_lt d e = true -> Traits_lt c e = true.
Proof.
  cbn. unfold char_eq. rewrite Ascii.eqb_eq. now intros ->.
Qed.

Lemma char_lt_eq_r (c d e : ascii) :
  Traits_lt c d = true -> Traits_eq d e = true -> Traits_lt c e = true.
Proof.
  cbn. unfold char_eq. rewrite Ascii.eqb_eq. now intros H <-.
Qed.

(** [string_view("hello").at(1)] is ['e']. *)
Lemma at_1_of_hello :
  exists c, at_ example_memory hello 1 = Ret c /\ c = "e"%char.
Proof.
  destruct (at_is_bounds_checked example_memory hello hello_chars 1 hello_views)
    as (H & _).
  - split; [discriminate|reflexivity].
  - destruct H as (c & Hn & Ha & _); [reflexivity|].
    exists c. split; [exact Ha|]. vm_compute in Hn. congruence.
Defined.

(** ["hello"] begins with ['h'] and ends with ['o']. *)
Lemma front_and_back_of_hello :
  exists c d, front example_memory hello = Ret c /\ back example_memory hello = Ret d.
Proof.
  destruct (front_and_back_of_nonempty example_memory hello hello_chars hello_views)
    as (c & d & Hc & _ & Hd & _).
  - reflexivity.
  - exists c, d. auto.
Defined.

(** Dropping two characters of ["hello"] at either end. *)
Lemma remove_two_of_hello :
  views example_memory (remove_prefix hello 2) (list_ascii_of_string "llo") /\
  views example_memory (remove_suffix hello 2) (list_ascii_of_string "hel").
Proof.
  destruct (remove_prefix_and_suffix example_memory hello hello_chars 2 hello_views)
    as (H & _).
  - split; [discriminate|reflexivity].
  - apply H. discriminate.
Defined.

Lemma remove_two_of_hello_as_substr :
  exists s, substr hello 2 npos = Ret s /\
    compare example_memory (remove_prefix hello 2) s = Ret 0.
Proof.
  destruct (remove_prefix_and_suffix_agree_with_substr example_memory hello
              hello_chars 2 hello_views) as (s & t & Hs & He & _).
  - split; [discriminate|reflexivity].
  - discriminate.
  - exists s. auto.
Defined.

(** [string_view("hello").substr(1, 3).substr(1, 1)] is [substr(2, 1)]. *)
Lemma substr_of_substr_of_hello :
  exists a b, substr hello 1 3 = Ret a /\ substr a 1 1 = Ret b /\
    substr hello 2 1 = Ret b.
Proof.
  destruct (substr_of_substr hello 1 3 1 1) as (a & Ha & H & _);
    try (split; [discriminate|reflexivity]); try discriminate.
  destruct H as (b & Hb & Hc); [discriminate|].
  exists a, b. auto.
Defined.

(** ["hello"] is after ["ell"] in the lexicographic order. *)
Lemma compare_hello_ell_sign :
  exists c, compare example_memory hello ell = Ret c /\ Z.sgn c = 1.
Proof.
  destruct (compare_orders_lexicographically example_memory hello ell
              hello_chars ell_chars hello_views ell_views) as (c & Hc & Hs).
  exists c. auto.
Defined.

(** [string_view("hello").compare("ell")] is positive and the converse
    negative, and [hello == ell] has no value. *)
Lemma compare_hello_ell :
  (exists ab ba,
     compare example_memory hello ell = Ret ab /\
     compare example_memory ell hello = Ret ba /\
     Z.sgn ab = - Z.sgn ba) /\
  operator_eq example_memory hello ell = Undefined.
Proof.
  destruct (compare_is_lexicographic_and_operator_eq_is_undefined example_memory
              hello ell hello_chars ell_chars hello_views ell_views)
    as ((ab & ba & H1 & H2 & _ & H3 & _) & H4 & _).
  split; [|exact H4]. exists ab, ba. auto.
Defined.

(** [string_view("hello").compare(1, 3, "ell", 0, 3)] is 0. *)
Lemma compare_slice_of_hello_with_ell :
  exists c, compare_sub_sub example_memory hello 1 3 ell 0 3 = Ret c /\
    Z.sgn c = 0.
Proof.
  destruct (ranged_compare_compares_slices example_memory hello ell
              hello_chars ell_chars 1 3 0 3 hello_views ell_views)
    as (c & Hc & Hs);
    try (split; [discriminate|reflexivity]); try discriminate.
  exists c. auto.
Defined.

Lemma compare_equal_on_hello :
  compare example_memory hello hello = Ret 0 /\
  (compare example_memory hello ell = Ret 0 <->
   compare example_memory ell hello = Ret 0).
Proof.
  destruct (compare_equal_is_an_equivalence char_eq_trans example_memory
              hello ell hello hello_chars ell_chars hello_chars
              hello_views ell_views hello_views) as (H1 & _ & H3 & _).
  split; auto.
Defined.

(** ["........"] compares less than ["ell"] and ["ell"] less than ["hello"],
    so ["........"] compares less than ["hello"]. *)
Lemma dots_lt_ell_lt_hello :
  exists c, compare example_memory dots hello = Ret c /\ c < 0.
Proof.
  destruct (compare_less_is_a_strict_order char_eq_trans char_lt_trans
              char_lt_eq_l char_lt_eq_r example_memory dots ell hello
              dots_chars ell_chars hello_chars dots_views ell_views hello_views)
    as (_ & H).
  apply (H (-1) (-1)); reflexivity.
Defined.

(** ["hello"] starts with ['h']. *)
Lemma hello_starts_with_h :
  starts_with_char example_memory hello "h"%char = Ret true.
Proof.
  destruct (single_character_prefix_and_suffix example_memory hello hello_chars
              "h"%char hello_views) as (H & _).
  exact H.
Defined.

(** [hello.substr(hello.find("ell"), 3)] compares equal to ["ell"]. *)
Lemma substr_where_ell_was_found :
  exists s, substr hello 1 (m_size ell) = Ret s /\
    compare example_memory s ell = Ret 0.
Proof.
  apply (substr_at_found_index_is_the_needle 10 example_memory hello ell
           hello_chars ell_chars 0 1 example_memory_addressable
           hello_views ell_views).
  - split; [discriminate|reflexivity].
  - reflexivity.
  - reflexivity.
  - discriminate.
Defined.

Lemma find_and_rfind_of_ell_in_hello :
  exists f r, find 10 example_memory hello ell 0 = Ret f /\
    rfind 10 example_memory hello ell npos = Ret r /\ (f <> npos -> f <= r).
Proof.
  destruct (find_is_not_after_rfind 10 example_memory hello ell
              hello_chars ell_chars example_memory_addressable
              hello_views ell_views) as (f & r & Hf & Hr & _ & H).
  - reflexivity.
  - exists f, r. auto.
Defined.

(** In ["hello"], the first character of ["ell"] is at 1 and the last at 3;
    the first character not in ["ell"] is at 0 and the last at 4. *)
Lemma find_first_of_ell_in_hello :
  exists r, find_first_of 10 example_memory hello ell 0 = Ret r /\ r = 1.
Proof.
  destruct (find_first_of_finds_the_first example_memory hello ell
              hello_chars ell_chars 10 0 example_memory_addressable
              hello_views ell_views) as (r & Hr & _).
  - split; [discriminate|reflexivity].
  - reflexivity.
  - exists r. split; [exact Hr|]. vm_compute in Hr. congruence.
Defined.

Lemma find_first_not_of_ell_in_hello :
  exists r, find_first_not_of 10 example_memory hello ell 0 = Ret r /\ r = 0.
Proof.
  destruct (find_first_not_of_finds_the_first example_memory hello ell
              hello_chars ell_chars 10 0 example_memory_addressable
              hello_views ell_views) as (r & Hr & _).
  - split; [discriminate|reflexivity].
  - reflexivity.
  - exists r. split; [exact Hr|]. vm_compute in Hr. congruence.
Defined.

Lemma find_last_of_ell_in_hello :
  exists r, find_last_of 10 example_memory hello ell npos = Ret r /\ r = 3.
Proof.
  destruct (find_last_of_finds_the_last example_memory hello ell
              hello_chars ell_chars 10 npos example_memory_addressable
              hello_views ell_views) as (r & Hr & _).
  - split; [discriminate|reflexivity].
  - reflexivity.
  - exists r. split; [exact Hr|]. vm_compute in Hr. congruence.
Defined.

Lemma find_last_not_of_ell_in_hello :
  exists r, find_last_not_of 10 example_memory hello ell npos = Ret r /\ r = 4.
Proof.
  destruct (find_last_not_of_finds_the_last example_memory hello ell
              hello_chars ell_chars 10 npos example_memory_addressable
              hello_views ell_views) as (r & Hr & _).
  - split; [discriminate|reflexivity].
  - reflexivity.
  - exists r. split; [exact Hr|]. vm_compute in Hr. congruence.
Defined.

(** [hello.find("ell")] and [hello.compare("ell")] with ["ell"] given as a
    pointer to the literal. *)
Lemma hello_and_the_literal_ell :
  (exists c, compare_cstr 10 example_memory hello 200 = Ret c /\ Z.sgn c = 1) /\
  (exists r, find_cstr 10 example_memory hello 200 0 = Ret r /\
             first_from hello_chars ell_chars 0 r).
Proof.
  destruct (null_terminated_overloads 10 example_memory hello hello_chars 200
              ell_chars 0 example_memory_addressable hello_views)
    as (H1 & H2 & _).
  - split; reflexivity.
  - split; [discriminate|reflexivity].
  - cbn. lia.
  - reflexivity.
  - split; [|exact H2]. destruct H1 as (c & Hc & Hs). exists c. auto.
Defined.

(** Copying ["ell"] out of ["hello"] into the array at 300. *)
Lemma copy_ell_out_of_hello :
  exists m' s,
    copy example_memory hello 300 3 1 = Ret (m', 3) /\
    substr hello 1 3 = Ret s /\
    compare m' (basic_string_view_count 300 3) s = Ret 0.
Proof.
  destruct (copy_then_view_equals_substr example_memory hello hello_chars
              300 3 1 (list_ascii_of_string "...") hello_views)
    as (m' & s & H1 & H2 & H3 & _).
  - split; [discriminate|reflexivity].
  - split; [discriminate|reflexivity].
  - discriminate.
  - reflexivity.
  - right. cbn. lia.
  - exists m', s. auto.
Defined.
